(** * Product variant tree: relational model of the schema and its queries

    The store is a SQLite database with two tables, [nodes] and the
    closure table [node_paths].  Tables are modelled as lists of rows in
    storage order, queries as list programs that follow the SQL text
    clause by clause (FROM / JOIN / WHERE / ORDER BY / LIMIT / SELECT),
    and the two triggers as state transformers on the database. *)

From Stdlib Require Import ZArith List String Bool Lia.
From Stdlib Require Import Sorting.Sorted Sorting.Permutation.
From Stdlib Require Import Structures.OrderedTypeEx.
From Stdlib Require Import DecimalString.
Import ListNotations.
Local Open Scope string_scope.
Local Open Scope list_scope.
Local Open Scope Z_scope.

(* ================================================================== *)
(** ** Schema *)
(* ================================================================== *)

(** Table [nodes].  INTEGER columns are [Z], TEXT columns are [string],
    nullable columns are [option].  The JSON columns [pictures] and
    [links] are read by none of the queries below and are left out. *)
Record node := mk_node {
  id : Z;
  parent_id : option Z;
  level : Z;
  code : option string;
  name : string;
  label : string;
  label_en : option string;
  position : Z;
  pattern : option Z;
  full_typecode : option string;
  is_intermediate_code : bool;
  group_name : option string
}.

(** Table [node_paths] (the closure table). *)
Record node_path := mk_path {
  ancestor_id : Z;
  descendant_id : Z;
  depth : Z
}.

Record database := mk_db {
  nodes : list node;
  node_paths : list node_path
}.

(* ================================================================== *)
(** ** SQL operators *)
(* ================================================================== *)

(** [a = b] in a WHERE or ON clause: the row is kept only when both
    operands are non-NULL and equal. *)
Definition sql_eq {A : Type} (eqb : A -> A -> bool) (a b : option A) : bool :=
  match a, b with
  | Some x, Some y => eqb x y
  | _, _ => false
  end.

(** [x IS NOT NULL]. *)
Definition is_not_null {A : Type} (a : option A) : bool :=
  match a with Some _ => true | None => false end.

(** ORDER BY: a stable insertion sort for the comparator [leb]. *)
Fixpoint insert_row {A : Type} (leb : A -> A -> bool) (x : A) (l : list A) : list A :=
  match l with
  | [] => [x]
  | y :: t => if leb x y then x :: y :: t else y :: insert_row leb x t
  end.

Definition order_by {A : Type} (leb : A -> A -> bool) (l : list A) : list A :=
  fold_right (insert_row leb) [] l.

(** LIMIT 1. *)
Definition limit_1 {A : Type} (l : list A) : list A := firstn 1 l.

(** A scalar subquery [(SELECT ... LIMIT 1)]: the first row, or NULL. *)
Definition scalar {A : Type} (l : list A) : option A := hd_error l.

(** SELECT DISTINCT on an INTEGER column. *)
Fixpoint distinct (l : list Z) : list Z :=
  match l with
  | [] => []
  | x :: t => if existsb (Z.eqb x) t then distinct t else x :: distinct t
  end.

(** [l LEFT JOIN r ON on]: every left row paired with each matching right
    row, or once with NULL when nothing matches. *)
Definition left_join {A B : Type} (on : A -> B -> bool) (l : list A) (r : list B)
  : list (A * option B) :=
  flat_map (fun a =>
              match filter (on a) r with
              | [] => [(a, None)]
              | ms => map (fun b => (a, Some b)) ms
              end) l.

(** [l JOIN r ON on]. *)
Definition join {A B : Type} (on : A -> B -> bool) (l : list A) (r : list B)
  : list (A * B) :=
  flat_map (fun a => map (pair a) (filter (on a) r)) l.

(** The aggregate MAX over an INTEGER column; NULL on no rows. *)
Definition sql_max (l : list Z) : option Z :=
  match l with
  | [] => None
  | x :: t => Some (fold_left Z.max t x)
  end.

(** Comparison of TEXT values (BINARY collation) and of nullable TEXT
    values, NULL sorting first. *)
Definition text_leb (a b : option string) : bool :=
  match a, b with
  | None, _ => true
  | Some _, None => false
  | Some x, Some y => String.leb x y
  end.

(** [ORDER BY k1, k2] on a pair of keys (INTEGER, nullable TEXT). *)
Definition key_leb (k1 k2 : Z * option string) : bool :=
  (fst k1 <? fst k2) || ((fst k1 =? fst k2) && text_leb (snd k1) (snd k2)).

(** [code = :param] for a non-NULL parameter. *)
Definition code_is (s : string) (n : node) : bool :=
  sql_eq String.eqb (code n) (Some s).

(* ================================================================== *)
(** ** Query 2: children of a node *)
(* ================================================================== *)

Record child_row := mk_child_row {
  ch_code : option string;
  ch_label : string;
  ch_name : string;
  ch_position : Z;
  ch_full_typecode : option string;
  ch_is_intermediate_code : bool
}.

Definition child_row_of (n : node) : child_row :=
  mk_child_row (code n) (label n) (name n) (position n)
               (full_typecode n) (is_intermediate_code n).

Definition node_order_key (n : node) : Z * option string := (position n, code n).

(** [(SELECT id FROM nodes WHERE code = :parent_code LIMIT 1)]; without an
    ORDER BY the row that LIMIT 1 keeps is the first one in scan order. *)
Definition id_by_code (db : database) (parent_code : string) : option Z :=
  scalar (map id (limit_1 (filter (code_is parent_code) (nodes db)))).

(** The rows selected by Query 2, before the SELECT list is applied. *)
Definition children_nodes (db : database) (parent_code : string) : list node :=
  order_by (fun a b => key_leb (node_order_key a) (node_order_key b))
    (filter (fun n => sql_eq Z.eqb (parent_id n) (id_by_code db parent_code)
                      && is_not_null (code n))
            (nodes db)).

Definition get_children (db : database) (parent_code : string) : list child_row :=
  map child_row_of (children_nodes db parent_code).

(* ================================================================== *)
(** ** Query 5: find node by code *)
(* ================================================================== *)

Record found_row := mk_found_row {
  f_id : Z;
  f_code : option string;
  f_label : string;
  f_level : Z;
  f_full_typecode : option string;
  f_parent_code : option string;
  f_parent_label : option string
}.

Definition found_row_of (np : node * option node) : found_row :=
  let (n, p) := np in
  mk_found_row (id n) (code n) (label n) (level n) (full_typecode n)
               (match p with Some q => code q | None => None end)
               (option_map label p).

(** [ORDER BY n.level, n.id] *)
Definition level_id_leb (a b : node * option node) : bool :=
  (level (fst a) <? level (fst b))
  || ((level (fst a) =? level (fst b)) && (id (fst a) <=? id (fst b))).

Definition find_by_code_rows (db : database) (search_code : string)
  : list (node * option node) :=
  order_by level_id_leb
    (filter (fun np => code_is search_code (fst np))
       (left_join (fun n p => sql_eq Z.eqb (parent_id n) (Some (id p)))
                  (nodes db) (nodes db))).

Definition find_by_code (db : database) (search_code : string) : list found_row :=
  map found_row_of (find_by_code_rows db search_code).

(* ================================================================== *)
(** ** Query 4: available options for a level *)
(* ================================================================== *)

(** One row of [current_selections]: the pair of parameters
    [:selection_i_code], [:selection_i_level]. *)
Record selection := mk_selection {
  cs_code : string;
  cs_level : Z
}.

(** Row of the CTE [candidates]. *)
Record candidate := mk_candidate {
  c_id : Z;
  c_code : option string;
  c_label : string;
  c_position : Z;
  c_group_name : option string;
  c_level : Z
}.

(** Row of the CTEs [selection_ids] and [last_selection]. *)
Record selection_id := mk_selection_id {
  si_id : Z;
  si_level : Z
}.

(** Row of the final SELECT. *)
Record option_row := mk_option_row {
  r_code : option string;
  r_label : string;
  r_position : Z;
  r_group_name : option string;
  r_level : Z;
  r_is_compatible : bool
}.

Definition candidate_of (n : node) : candidate :=
  mk_candidate (id n) (code n) (label n) (position n) (group_name n) (level n).

Definition candidates (db : database) (target_level : Z) : list candidate :=
  map candidate_of
    (filter (fun n => (level n =? target_level) && is_not_null (code n)) (nodes db)).

Definition selection_ids (db : database) (current_selections : list selection)
  : list selection_id :=
  map (fun csn => mk_selection_id (id (snd csn)) (cs_level (fst csn)))
    (join (fun cs n => sql_eq String.eqb (code n) (Some (cs_code cs))
                       && (level n =? cs_level cs))
          current_selections (nodes db)).

(** [ORDER BY level DESC LIMIT 1] *)
Definition level_desc (a b : selection_id) : bool := si_level b <=? si_level a.

Definition last_selection (db : database) (current_selections : list selection)
  : list selection_id :=
  limit_1 (order_by level_desc (selection_ids db current_selections)).

(** The closure-table lookup used by both checks: is there a row
    [(a, d, _)] in [node_paths]? *)
Definition path_exists (db : database) (a d : Z) : bool :=
  existsb (fun np => (ancestor_id np =? a) && (descendant_id np =? d)) (node_paths db).

Definition forward_compatible (db : database) (target_level : Z)
  (current_selections : list selection) : list Z :=
  distinct
    (map (fun r => descendant_id (fst (fst r)))
       (join (fun npls c => descendant_id (fst npls) =? c_id c)
          (join (fun np ls => ancestor_id np =? si_id ls)
                (node_paths db) (last_selection db current_selections))
          (candidates db target_level))).

Definition backward_compatible (db : database) (target_level : Z)
  (current_selections : list selection) : list Z :=
  map c_id
    (filter (fun c =>
               negb (existsb (fun si =>
                                (si_level si <? target_level)
                                && negb (existsb (fun np =>
                                                    (ancestor_id np =? c_id c)
                                                    && (descendant_id np =? si_id si))
                                                 (node_paths db)))
                             (selection_ids db current_selections)))
            (candidates db target_level)).

Definition candidate_order_key (c : candidate) : Z * option string :=
  (c_position c, c_code c).

Definition option_row_of (r : candidate * option Z * option Z) : option_row :=
  let '(c, fc, bc) := r in
  mk_option_row (c_code c) (c_label c) (c_position c) (c_group_name c) (c_level c)
                (is_not_null fc && is_not_null bc).

(** Approach A, the full statement. *)
Definition available_options (db : database) (target_level : Z)
  (current_selections : list selection) : list option_row :=
  map option_row_of
    (order_by (fun a b => key_leb (candidate_order_key (fst (fst a)))
                                  (candidate_order_key (fst (fst b))))
       (left_join (fun cfc bc => c_id (fst cfc) =? bc)
          (left_join (fun c fc => c_id c =? fc)
             (candidates db target_level)
             (forward_compatible db target_level current_selections))
          (backward_compatible db target_level current_selections))).

(** The statement "SIMPLIFIED VERSION: No Previous Selections". *)
Definition option_row_all_compatible (n : node) : option_row :=
  mk_option_row (code n) (label n) (position n) (group_name n) (level n) true.

Definition options_no_selections (db : database) (target_level : Z) : list option_row :=
  map option_row_all_compatible
    (order_by (fun a b => key_leb (node_order_key a) (node_order_key b))
       (filter (fun n => (level n =? target_level) && is_not_null (code n)) (nodes db))).

(** Modelled from the spec: the choice between the two statements of
    Query 4 is made by the caller of the SQL file, which is not part of
    it; the trivial case runs the simplified statement, every other
    selection set runs the full one. *)
Definition resolve_options (db : database) (target_level : Z)
  (current_selections : list selection) : list option_row :=
  match current_selections with
  | [] => options_no_selections db target_level
  | _ => available_options db target_level current_selections
  end.

(** The two checks as predicates on a candidate id. *)
Definition forward_pass (db : database) (target_level : Z)
  (current_selections : list selection) (cid : Z) : bool :=
  existsb (Z.eqb cid) (forward_compatible db target_level current_selections).

Definition backward_pass (db : database) (target_level : Z)
  (current_selections : list selection) (cid : Z) : bool :=
  existsb (Z.eqb cid) (backward_compatible db target_level current_selections).

(** The candidates in result order, and the result row of a candidate
    whose flag is the conjunction of the two checks. *)
Definition candidate_leb (a b : candidate) : bool :=
  key_leb (candidate_order_key a) (candidate_order_key b).

Definition flagged (db : database) (t : Z) (sels : list selection) (c : candidate)
  : option_row :=
  mk_option_row (c_code c) (c_label c) (c_position c) (c_group_name c) (c_level c)
    (forward_pass db t sels (c_id c) && backward_pass db t sels (c_id c)).

(* ================================================================== *)
(** ** Query 3: maximum depth from a node *)
(* ================================================================== *)

(** Row of the recursive CTE [depth_calc]. *)
Record depth_row := mk_depth_row {
  d_id : Z;
  d_depth : Z
}.

(** Base case: [SELECT id, 0 FROM nodes WHERE code = :start_code]. *)
Definition depth_calc_base (db : database) (start_code : string) : list depth_row :=
  map (fun n => mk_depth_row (id n) 0) (filter (code_is start_code) (nodes db)).

(** Recursive case, run on the rows [d] produced by the previous round:
    [SELECT n.id, d.depth + 1 FROM nodes n JOIN depth_calc d ON n.parent_id = d.id]. *)
Definition depth_calc_step (db : database) (d : list depth_row) : list depth_row :=
  map (fun nd => mk_depth_row (id (fst nd)) (d_depth (snd nd) + 1))
    (join (fun n r => sql_eq Z.eqb (parent_id n) (Some (d_id r))) (nodes db) d).

(** [WITH RECURSIVE ... UNION ALL ...]: the recursive case is applied to
    the newly produced rows until it produces none.  The engine dequeues
    one row at a time; taking a whole round at a time yields the same
    rows.  On a cyclic [parent_id] chain the statement does not
    terminate: [None] stands for a run that needs more than [fuel]
    rounds. *)
Fixpoint depth_calc (fuel : nat) (db : database) (work : list depth_row)
  : option (list depth_row) :=
  match fuel with
  | O => None
  | S f =>
      match work with
      | [] => Some []
      | _ => option_map (app work) (depth_calc f db (depth_calc_step db work))
      end
  end.

(** The rows produced by round [k] of the recursion, round 0 being the
    rows of [work]. *)
Fixpoint depth_calc_round (db : database) (k : nat) (work : list depth_row)
  : list depth_row :=
  match k with
  | O => work
  | S k' => depth_calc_round db k' (depth_calc_step db work)
  end.

(** Option A: [SELECT MAX(depth) FROM depth_calc]. *)
Definition max_depth_recursive (fuel : nat) (db : database) (start_code : string)
  : option (option Z) :=
  option_map (fun rows => sql_max (map d_depth rows))
             (depth_calc fuel db (depth_calc_base db start_code)).

(** Option B:
    [SELECT MAX(depth) FROM node_paths WHERE ancestor_id = (SELECT id ... LIMIT 1)]. *)
Definition max_depth_closure (db : database) (start_code : string) : option Z :=
  sql_max
    (map depth
       (filter (fun np => sql_eq Z.eqb (Some (ancestor_id np)) (id_by_code db start_code))
               (node_paths db))).

(** A number of rounds that suffices when ids are positive and every
    parent id is smaller than the id of its child. *)
Definition enough_rounds (db : database) : nat :=
  S (S (Z.to_nat (fold_right Z.max 0 (map id (nodes db))))).

(* ================================================================== *)
(** ** Walking [parent_id] pointers *)
(* ================================================================== *)

Definition find_node (db : database) (i : Z) : option node :=
  find (fun n => id n =? i) (nodes db).

Definition parent_of (db : database) (i : Z) : option Z :=
  match find_node db i with
  | Some n => parent_id n
  | None => None
  end.

(** The node reached from [i] after [k] steps along [parent_id]. *)
Fixpoint ancestor_at (db : database) (i : Z) (k : nat) : option Z :=
  match k with
  | O => Some i
  | S k' =>
      match parent_of db i with
      | Some p => ancestor_at db p k'
      | None => None
      end
  end.

(** The closure rows of descendant [d] obtained by walking from [cur],
    which lies [dist] steps above [d], up to the root. *)
Fixpoint walk_up (fuel : nat) (db : database) (d cur dist : Z) : list node_path :=
  match fuel with
  | O => []
  | S f =>
      mk_path cur d dist ::
      match parent_of db cur with
      | Some p => walk_up f db d p (dist + 1)
      | None => []
      end
  end.

Definition walked_closure (ns : list node) : list node_path :=
  let db := mk_db ns [] in
  flat_map (fun n => walk_up (List.length ns) db (id n) (id n) 0) ns.

(** Closure completeness: the rows of [node_paths] are exactly the
    triples (ancestor, descendant, distance) found by walking. *)
Definition closure_complete (db : database) : Prop :=
  forall a d z,
    In (mk_path a d z) (node_paths db) <->
    (exists n, In n (nodes db) /\ id n = d) /\
    (exists k, z = Z.of_nat k /\ ancestor_at db d k = Some a).

(** Ids are positive (AUTOINCREMENT) and a parent row is created before
    its children, so it has the smaller id. *)
Definition parents_first (db : database) : Prop :=
  forall n, In n (nodes db) ->
    1 <= id n /\ forall p, parent_id n = Some p -> p < id n.

(** [h] is the length of the longest downward path that starts at [a]. *)
Definition longest_path_below (db : database) (a : Z) (h : nat) : Prop :=
  (exists n, In n (nodes db) /\ ancestor_at db (id n) h = Some a) /\
  (forall n k, In n (nodes db) -> ancestor_at db (id n) k = Some a -> (k <= h)%nat).

(* ================================================================== *)
(** ** Mutations and the closure triggers *)
(* ================================================================== *)

(** The CHECK constraint of [nodes]. *)
Definition check_code_xor_pattern (n : node) : bool :=
  (is_not_null (code n) && negb (is_not_null (pattern n)))
  || (negb (is_not_null (code n)) && is_not_null (pattern n))
  || negb (is_not_null (parent_id n)).

(** PRIMARY KEY on [id], the CHECK constraint, and the foreign key of
    [parent_id]. *)
Definition insert_allowed (new : node) (db : database) : bool :=
  negb (existsb (fun n => id n =? id new) (nodes db))
  && check_code_xor_pattern new
  && match parent_id new with
     | None => true
     | Some p => existsb (fun n => id n =? p) (nodes db)
     end.

(** [trg_node_insert]: AFTER INSERT ON nodes FOR EACH ROW
    WHEN NEW.parent_id IS NOT NULL. *)
Definition trg_node_insert (new : node) (paths : list node_path) : list node_path :=
  match parent_id new with
  | None => paths
  | Some p =>
      let with_self := paths ++ [mk_path (id new) (id new) 0] in
      with_self
      ++ map (fun np => mk_path (ancestor_id np) (id new) (depth np + 1))
             (filter (fun np => descendant_id np =? p) with_self)
  end.

(** [INSERT INTO nodes ...]; [None] when a constraint rejects the row. *)
Definition insert_node (new : node) (db : database) : option database :=
  if insert_allowed new db
  then Some (mk_db (nodes db ++ [new]) (trg_node_insert new (node_paths db)))
  else None.

(** [trg_node_delete]: BEFORE DELETE ON nodes FOR EACH ROW. *)
Definition trg_node_delete (old_id : Z) (paths : list node_path) : list node_path :=
  filter (fun np => negb ((ancestor_id np =? old_id) || (descendant_id np =? old_id))) paths.

(** Deleting the rows [work]: each stored row fires the trigger, is
    removed, and by ON DELETE CASCADE queues the rows whose [parent_id]
    is its id; an id that names no row deletes nothing. *)
Fixpoint delete_rows (fuel : nat) (work : list Z) (db : database) : database :=
  match fuel with
  | O => db
  | S f =>
      match work with
      | [] => db
      | i :: rest =>
          if existsb (fun n => id n =? i) (nodes db)
          then
            let kids :=
              map id (filter (fun n => sql_eq Z.eqb (parent_id n) (Some i)) (nodes db)) in
            delete_rows f (rest ++ kids)
              (mk_db (filter (fun n => negb (id n =? i)) (nodes db))
                     (trg_node_delete i (node_paths db)))
          else delete_rows f rest db
      end
  end.

(** [DELETE FROM nodes WHERE id = :id]. *)
Definition delete_node (i : Z) (db : database) : database :=
  delete_rows (S (List.length (nodes db))) [i] db.

Definition empty_db : database := mk_db [] [].

(** States of the store reachable from the empty schema by row
    insertions and deletions, the triggers being installed. *)
Inductive reachable : database -> Prop :=
| reachable_empty : reachable empty_db
| reachable_insert : forall db new db',
    reachable db -> insert_node new db = Some db' -> reachable db'
| reachable_delete : forall db i,
    reachable db -> reachable (delete_node i db).

(* ================================================================== *)
(** ** The resolver's checks as the specification words them *)
(* ================================================================== *)

Definition level_asc (a b : selection_id) : bool := si_level a <=? si_level b.

(** Selections below the target level, by level ascending. *)
Definition before (db : database) (target_level : Z)
  (current_selections : list selection) : list Z :=
  map si_id (order_by level_asc
               (filter (fun si => si_level si <? target_level)
                       (selection_ids db current_selections))).

(** Selections above the target level, by level ascending. *)
Definition after (db : database) (target_level : Z)
  (current_selections : list selection) : list Z :=
  map si_id (order_by level_asc
               (filter (fun si => target_level <? si_level si)
                       (selection_ids db current_selections))).

(** [chain_from db x [y0; y1; ...]]: x reaches y0, y0 reaches y1, ... *)
Fixpoint chain_from (db : database) (x : Z) (l : list Z) : bool :=
  match l with
  | [] => true
  | y :: t => path_exists db x y && chain_from db y t
  end.

(** Forward check of the specification: before[0] -> ... -> before[last] -> c. *)
Definition spec_forward_check (db : database) (target_level : Z)
  (current_selections : list selection) (cid : Z) : bool :=
  match before db target_level current_selections with
  | [] => true
  | b0 :: t => chain_from db b0 (t ++ [cid])
  end.

(** Backward check of the specification: c -> after[0] -> after[1] -> ... *)
Definition spec_backward_check (db : database) (target_level : Z)
  (current_selections : list selection) (cid : Z) : bool :=
  chain_from db cid (after db target_level current_selections).

(** The order of the result rows: position, then code. *)
Definition option_row_leb (a b : option_row) : bool :=
  key_leb (r_position a, r_code a) (r_position b, r_code b).

(* ================================================================== *)
(** ** Sample stores *)
(* ================================================================== *)

Definition selectable (i : Z) (p : option Z) (lvl : Z) (c : string) (pos : Z) : node :=
  mk_node i p lvl (Some c) "option" c None pos None None false None.

(** Family CAR of the documentation. *)
Definition car_nodes : list node :=
  [ selectable 1 None 0 "CAR" 0;
    selectable 2 (Some 1) 1 "ENGINE-A" 5;
    selectable 3 (Some 1) 1 "ENGINE-B" 5;
    selectable 4 (Some 2) 2 "TRANS-X" 13;
    selectable 5 (Some 2) 2 "TRANS-Y" 13;
    selectable 6 (Some 3) 2 "TRANS-Z" 13;
    selectable 7 (Some 4) 3 "RED" 22;
    selectable 8 (Some 4) 3 "BLUE" 22;
    selectable 9 (Some 6) 3 "BLACK" 22;
    selectable 10 (Some 6) 3 "WHITE" 22 ].

Definition car_db : database := mk_db car_nodes (walked_closure car_nodes).

(** The same family with a complete typecode recorded on TRANS-X. *)
Definition car_nodes_typecode : list node :=
  map (fun n => if id n =? 4
                then mk_node (id n) (parent_id n) (level n) (code n) (name n) (label n)
                             (label_en n) (position n) (pattern n)
                             (Some "CAR ENGINE-A-TRANS-X") true (group_name n)
                else n) car_nodes.

Definition car_db_typecode : database :=
  mk_db car_nodes_typecode (walked_closure car_nodes_typecode).

(** A store in which code X occurs in two branches. *)
Definition twin_nodes : list node :=
  [ selectable 1 None 0 "R" 0;
    selectable 2 (Some 1) 1 "X" 2;
    selectable 3 (Some 1) 1 "Y" 2;
    selectable 4 (Some 3) 2 "X" 4;
    selectable 5 (Some 4) 3 "Z" 6 ].

Definition twin_db : database := mk_db twin_nodes (walked_closure twin_nodes).

(** A chain of three nodes with distinct codes. *)
Definition chain_nodes : list node :=
  [ selectable 1 None 0 "R" 0;
    selectable 2 (Some 1) 1 "S" 2;
    selectable 3 (Some 2) 2 "T" 4 ].

Definition chain_db : database := mk_db chain_nodes (walked_closure chain_nodes).

(** The store after inserting a family root and one child into the
    empty schema. *)
Definition root_then_child : option database :=
  match insert_node (selectable 1 None 0 "CAR" 0) empty_db with
  | Some db => insert_node (selectable 2 (Some 1) 1 "ENGINE-A" 5) db
  | None => None
  end.

(* ================================================================== *)
(** ** Query 1 and the views of the schema *)
(* ================================================================== *)

(** [x IS NULL]. *)
Definition is_null {A : Type} (a : option A) : bool := negb (is_not_null a).

Record family_row := mk_family_row {
  fam_code : option string;
  fam_label : string;
  fam_label_en : option string;
  fam_position : Z;
  fam_group_name : option string
}.

Definition family_row_of (n : node) : family_row :=
  mk_family_row (code n) (label n) (label_en n) (position n) (group_name n).

(** [WHERE parent_id IS NULL AND code IS NOT NULL] *)
Definition is_product_family (n : node) : bool :=
  is_null (parent_id n) && is_not_null (code n).

(** Query 1. *)
Definition product_families (db : database) : list family_row :=
  map family_row_of
    (order_by (fun a b => key_leb (node_order_key a) (node_order_key b))
       (filter is_product_family (nodes db))).

(** View [v_product_families]: the same rows with their id, ORDER BY code. *)
Definition v_product_families (db : database) : list (Z * family_row) :=
  map (fun n => (id n, family_row_of n))
    (order_by (fun a b => text_leb (code a) (code b))
       (filter is_product_family (nodes db))).

(** Row of the views [v_leaf_products] and [v_intermediate_products]. *)
Record product_view_row := mk_product_view_row {
  pv_id : Z;
  pv_code : option string;
  pv_full_typecode : option string;
  pv_label : string;
  pv_label_en : option string
}.

Definition product_view_row_of (n : node) : product_view_row :=
  mk_product_view_row (id n) (code n) (full_typecode n) (label n) (label_en n).

(** [WHERE full_typecode IS NOT NULL AND is_intermediate_code = 0
     ORDER BY full_typecode] *)
Definition v_leaf_products (db : database) : list product_view_row :=
  map product_view_row_of
    (order_by (fun a b => text_leb (full_typecode a) (full_typecode b))
       (filter (fun n => is_not_null (full_typecode n) && negb (is_intermediate_code n))
               (nodes db))).

(** [WHERE full_typecode IS NOT NULL AND is_intermediate_code = 1
     ORDER BY full_typecode] *)
Definition v_intermediate_products (db : database) : list product_view_row :=
  map product_view_row_of
    (order_by (fun a b => text_leb (full_typecode a) (full_typecode b))
       (filter (fun n => is_not_null (full_typecode n) && is_intermediate_code n)
               (nodes db))).

(* ================================================================== *)
(** ** Query 6: find product by full typecode *)
(* ================================================================== *)

Record product_row := mk_product_row {
  p_id : Z;
  p_code : option string;
  p_label : string;
  p_full_typecode : option string;
  p_is_intermediate_code : bool
}.

Definition product_row_of (n : node) : product_row :=
  mk_product_row (id n) (code n) (label n) (full_typecode n) (is_intermediate_code n).

(** [WHERE full_typecode = :full_typecode LIMIT 1] *)
Definition find_product (db : database) (typecode : string) : list product_row :=
  map product_row_of
    (limit_1 (filter (fun n => sql_eq String.eqb (full_typecode n) (Some typecode))
                     (nodes db))).

(* ================================================================== *)
(** ** Query 7: check node type *)
(* ================================================================== *)

(** Row of the CTE [node_info]. *)
Record node_info := mk_node_info {
  ni_code : option string;
  ni_label : string;
  ni_full_typecode : option string;
  ni_is_intermediate_code : bool;
  ni_pattern : option Z;
  ni_child_count : Z
}.

(** [(SELECT COUNT( * ) FROM nodes WHERE parent_id = n.id)] *)
Definition child_count (db : database) (n : node) : Z :=
  Z.of_nat (List.length (filter (fun m => sql_eq Z.eqb (parent_id m) (Some (id n)))
                                (nodes db))).

Definition node_info_of (db : database) (n : node) : node_info :=
  mk_node_info (code n) (label n) (full_typecode n) (is_intermediate_code n)
               (pattern n) (child_count db n).

(** The CASE expression of the final SELECT. *)
Definition node_type (i : node_info) : string :=
  if is_not_null (ni_pattern i) then "pattern_container"
  else if is_not_null (ni_full_typecode i) && negb (ni_is_intermediate_code i) then "leaf"
  else if is_not_null (ni_full_typecode i) && ni_is_intermediate_code i then "intermediate"
  else if is_null (ni_full_typecode i) && is_not_null (ni_code i) then "variant_step"
  else "unknown".

Record node_type_row := mk_node_type_row {
  nt_code : option string;
  nt_label : string;
  nt_node_type : string;
  nt_has_children : bool
}.

Definition check_node_type (db : database) (check_code : string) : list node_type_row :=
  map (fun i => mk_node_type_row (ni_code i) (ni_label i) (node_type i)
                                 (0 <? ni_child_count i))
    (map (node_info_of db) (limit_1 (filter (code_is check_code) (nodes db)))).

(* ================================================================== *)
(** ** Query 8: full path from root to node *)
(* ================================================================== *)

(** [WITH RECURSIVE t AS (base UNION ALL step)] for an arbitrary
    recursive case [step], evaluated round by round like [depth_calc]. *)
Fixpoint with_recursive {A : Type} (step : list A -> list A) (fuel : nat)
  (work : list A) : option (list A) :=
  match fuel with
  | O => None
  | S f =>
      match work with
      | [] => Some []
      | _ => option_map (app work) (with_recursive step f (step work))
      end
  end.

(** The rows of round [k]. *)
Fixpoint recursive_round {A : Type} (step : list A -> list A) (k : nat)
  (work : list A) : list A :=
  match k with
  | O => work
  | S k' => recursive_round step k' (step work)
  end.

(** Row of the recursive CTE [path_to_root]. *)
Record path_row := mk_path_row {
  pr_id : Z;
  pr_parent_id : option Z;
  pr_code : option string;
  pr_label : string;
  pr_level : Z;
  pr_depth_from_target : Z
}.

Definition path_row_of (n : node) (d : Z) : path_row :=
  mk_path_row (id n) (parent_id n) (code n) (label n) (level n) d.

(** [WHERE code = :target_code
     AND (:target_full_typecode IS NULL OR full_typecode = :target_full_typecode)] *)
Definition is_target (target_code : string) (target_full_typecode : option string)
  (n : node) : bool :=
  code_is target_code n
  && match target_full_typecode with
     | None => true
     | Some t => sql_eq String.eqb (full_typecode n) (Some t)
     end.

Definition path_to_root_base (db : database) (target_code : string)
  (target_full_typecode : option string) : list path_row :=
  map (fun n => path_row_of n 0)
    (filter (is_target target_code target_full_typecode) (nodes db)).

(** [FROM nodes n JOIN path_to_root p ON p.parent_id = n.id] *)
Definition path_to_root_step (db : database) (p : list path_row) : list path_row :=
  map (fun np => path_row_of (fst np) (pr_depth_from_target (snd np) + 1))
    (join (fun n r => sql_eq Z.eqb (pr_parent_id r) (Some (id n))) (nodes db) p).

(** Row of the result of Query 8. *)
Record breadcrumb := mk_breadcrumb {
  bc_code : option string;
  bc_label : string;
  bc_level : Z;
  bc_depth : Z
}.

Definition depth_desc (a b : Z) : bool := b <=? a.

(** Option A: recursive CTE, [WHERE code IS NOT NULL
    ORDER BY depth_from_target DESC]. *)
Definition path_from_root (fuel : nat) (db : database) (target_code : string)
  (target_full_typecode : option string) : option (list breadcrumb) :=
  option_map
    (fun rows =>
       map (fun r => mk_breadcrumb (pr_code r) (pr_label r) (pr_level r)
                                   (pr_depth_from_target r))
         (order_by (fun a b => depth_desc (pr_depth_from_target a)
                                          (pr_depth_from_target b))
            (filter (fun r => is_not_null (pr_code r)) rows)))
    (with_recursive (path_to_root_step db) fuel
       (path_to_root_base db target_code target_full_typecode)).

(** Option B: the closure table joined with [nodes] and the one-row CTE
    [target_node]. *)
Definition target_node (db : database) (target_code : string)
  (target_full_typecode : option string) : list Z :=
  map id (limit_1 (filter (is_target target_code target_full_typecode) (nodes db))).

Definition path_from_root_closure (db : database) (target_code : string)
  (target_full_typecode : option string) : list breadcrumb :=
  map (fun r => let n := snd (fst r) in
                mk_breadcrumb (code n) (label n) (level n) (depth (fst (fst r))))
    (order_by (fun a b => depth_desc (depth (fst (fst a))) (depth (fst (fst b))))
       (filter (fun r => is_not_null (code (snd (fst r))))
          (join (fun npn t => descendant_id (fst npn) =? t)
             (join (fun np n => ancestor_id np =? id n) (node_paths db) (nodes db))
             (target_node db target_code target_full_typecode)))).

(* ================================================================== *)
(** ** Helper queries *)
(* ================================================================== *)

(** [COUNT(CASE WHEN c THEN 1 END)] *)
Definition count_when {A : Type} (c : A -> bool) (l : list A) : Z :=
  Z.of_nat (List.length (filter c l)).

(** "Find Orphaned Nodes": [WHERE parent_id IS NOT NULL
    AND parent_id NOT IN (SELECT id FROM nodes)]. *)
Definition is_orphan (db : database) (n : node) : bool :=
  match parent_id n with
  | None => false
  | Some p => negb (existsb (Z.eqb p) (map id (nodes db)))
  end.

Definition orphaned_nodes (db : database) : list (Z * option string * option Z * string) :=
  map (fun n => (id n, code n, parent_id n, "Orphaned node - parent does not exist"))
    (filter (is_orphan db) (nodes db)).

(** "Check Closure Table Integrity". *)
Record closure_integrity := mk_closure_integrity {
  total_paths : Z;
  self_references : Z;
  ci_max_depth : option Z
}.

Definition check_closure_integrity (db : database) : closure_integrity :=
  mk_closure_integrity
    (Z.of_nat (List.length (node_paths db)))
    (count_when (fun np => depth np =? 0) (node_paths db))
    (sql_max (map depth (node_paths db))).

(* ================================================================== *)
(** ** Stores built by insertions only *)
(* ================================================================== *)

Inductive inserted : database -> Prop :=
| inserted_empty : inserted empty_db
| inserted_step : forall db new db',
    inserted db -> insert_node new db = Some db' -> inserted db'.

(** A node that is stored and has a parent. *)
Definition stored_non_root (db : database) (a : Z) : Prop :=
  exists n, In n (nodes db) /\ id n = a /\ parent_id n <> None.

(** Every closure row leads from a node to a node of the same or a
    higher level. *)
Definition levels_respected (db : database) : bool :=
  forallb (fun np =>
             forallb (fun na =>
                        forallb (fun nd =>
                                   implb ((id na =? ancestor_id np)
                                          && (id nd =? descendant_id np))
                                         (level na <=? level nd))
                                (nodes db))
                     (nodes db))
          (node_paths db).

(** Every [parent_id] names a stored row. *)
Definition no_orphans (db : database) : Prop :=
  forall n p, In n (nodes db) -> parent_id n = Some p ->
              exists q, In q (nodes db) /\ id q = p.

(** The closure table holds exactly the walked triples whose ancestor is
    a stored node with a parent. *)
Definition closure_of_non_roots (db : database) : Prop :=
  forall a d z,
    In (mk_path a d z) (node_paths db) <->
    (exists n, In n (nodes db) /\ id n = d) /\
    stored_non_root db a /\
    (exists k, z = Z.of_nat k /\ ancestor_at db d k = Some a).

(** The key of [node_paths]. *)
Definition path_key (np : node_path) : Z * Z := (ancestor_id np, descendant_id np).

(* ================================================================== *)
(** ** The mapping editor: combinations of codes (combinationGenerator.ts,
       MappingTool.tsx) *)
(* ================================================================== *)

(** The fields of [Code], [Position] and [Group] that the generators
    read.  Group numbers and position indices are integers; code values
    are strings whose length counts their characters. *)
Record Code := mk_Code {
  value : string
}.

Record Position := mk_Position {
  positionIndex : Z;
  codes : list Code
}.

Record Group := mk_Group {
  groupNumber : Z;
  positions : list Position
}.

(** A number inside a template literal. *)
Definition number_to_string (n : Z) : string := NilZero.string_of_int (Z.to_int n).

(** [[...group.positions].sort((a, b) => a.positionIndex - b.positionIndex)] *)
Definition sortedPositions (group : Group) : list Position :=
  order_by (fun a b => positionIndex a <=? positionIndex b) (positions group).

(** [generateRecursive] of [generateGroupCombinations]; the positions from
    index [positionIndex] on are the list [rest]. *)
Fixpoint generateRecursive (group : Group) (rest : list Position)
  (currentTypecodePos : Z) (path : list string) : list string :=
  match rest with
  | [] => [String.concat "," path]
  | position :: rest' =>
      flat_map
        (fun code =>
           let segment :=
             (number_to_string (groupNumber group) ++ ":"
              ++ number_to_string currentTypecodePos ++ "=" ++ value code)%string in
           let nextTypecodePos :=
             currentTypecodePos + Z.of_nat (String.length (value code)) in
           generateRecursive group rest' nextTypecodePos (path ++ [segment]))
        (codes position)
  end.

Definition generateGroupCombinations (group : Group) : list string :=
  match positions group with
  | [] => []
  | _ => generateRecursive group (sortedPositions group) 1 []
  end.

(** [arrays.reduce((acc, curr) => acc.flatMap(a => curr.map(c => [...a, c])), [[]])] *)
Definition cartesianProduct (arrays : list (list string)) : list (list string) :=
  fold_left (fun acc curr => flat_map (fun a => map (fun c => a ++ [c]) curr) acc)
            arrays [[]].

Definition has_positions (group : Group) : bool :=
  match positions group with [] => false | _ => true end.

Definition generateCombinationsForPreview (groups : list Group) : list string :=
  match groups with
  | [] => []
  | _ =>
      let allGroupCombinations :=
        map generateGroupCombinations (filter has_positions groups) in
      match allGroupCombinations with
      | [] => []
      | _ => map (String.concat ",") (cartesianProduct allGroupCombinations)
      end
  end.

(** [lengths.add(x)] on a Set kept in insertion order. *)
Definition set_add_length (x : Z) (lengths : list Z) : list Z :=
  if existsb (Z.eqb x) lengths then lengths else lengths ++ [x].

(** [calculateRecursive] of [calculateGroupLengths], threading the Set. *)
Fixpoint calculateRecursive (rest : list Position) (currentLength : Z)
  (lengths : list Z) : list Z :=
  match rest with
  | [] => set_add_length currentLength lengths
  | position :: rest' =>
      fold_left
        (fun acc code =>
           calculateRecursive rest' (currentLength + Z.of_nat (String.length (value code)))
                              acc)
        (codes position) lengths
  end.

Definition calculateGroupLengths (group : Group) : list Z :=
  match positions group with
  | [] => []
  | _ => calculateRecursive (sortedPositions group) 0 []
  end.

(** The ways to pick one code at each position, and the total length of
    a pick. *)
Fixpoint picks (ps : list Position) : list (list Code) :=
  match ps with
  | [] => [[]]
  | p :: rest => flat_map (fun c => map (cons c) (picks rest)) (codes p)
  end.

Definition pick_length (pick : list Code) : Z :=
  fold_right (fun c acc => Z.of_nat (String.length (value c)) + acc) 0 pick.

Definition product (l : list nat) : nat := fold_right Nat.mul 1%nat l.

(** The number of codes at each position of a group. *)
Definition code_counts (group : Group) : list nat :=
  map (fun p => List.length (codes p)) (positions group).

(** Some stored row has id [x]. *)
Definition stored (db : database) (x : Z) : Prop :=
  exists n, In n (nodes db) /\ id n = x.

(** One step of [delete_rows]: the trigger fires for row [i] and the row
    is removed. *)
Definition remove_row (i : Z) (db : database) : database :=
  mk_db (filter (fun n => negb (id n =? i)) (nodes db))
        (trg_node_delete i (node_paths db)).

(** The rows that the cascade has still to reach: those whose parent is
    stored. *)
Definition has_stored_parent (db : database) (n : node) : bool :=
  match parent_id n with
  | None => false
  | Some p => existsb (fun m => id m =? p) (nodes db)
  end.

(** Two rows that name each other as parent. *)
Definition loop_db : database :=
  mk_db [ selectable 1 (Some 2) 1 "A" 0; selectable 2 (Some 1) 1 "B" 0 ] [].

(* ================================================================== *)
(** * Properties *)
(* ================================================================== *)

Example car_gap_query :
  available_options car_db 2 [mk_selection "RED" 3]
  = [ mk_option_row (Some "TRANS-X") "TRANS-X" 13 None 2 false;
      mk_option_row (Some "TRANS-Y") "TRANS-Y" 13 None 2 false;
      mk_option_row (Some "TRANS-Z") "TRANS-Z" 13 None 2 false ].
Proof. vm_compute. reflexivity. Qed.

(* ------------------------------------------------------------------ *)
(** ** ORDER BY *)
(* ------------------------------------------------------------------ *)

Section OrderBy.
Context {A : Type} (leb : A -> A -> bool).

Lemma insert_row_perm (x : A) (l : list A) :
  Permutation (insert_row leb x l) (x :: l).
Proof.
  induction l as [|y t IH]; simpl.
  - apply Permutation_refl.
  - destruct (leb x y).
    + apply Permutation_refl.
    + eapply perm_trans; [apply perm_skip, IH | apply perm_swap].
Qed.

Lemma order_by_perm (l : list A) : Permutation (order_by leb l) l.
Proof.
  induction l as [|x t IH]; simpl.
  - constructor.
  - eapply perm_trans; [apply insert_row_perm | apply perm_skip, IH].
Qed.

Lemma order_by_In (l : list A) (x : A) : In x (order_by leb l) <-> In x l.
Proof.
  split; apply Permutation_in;
    [apply order_by_perm | apply Permutation_sym, order_by_perm].
Qed.

Lemma order_by_length (l : list A) : List.length (order_by leb l) = List.length l.
Proof. apply Permutation_length, order_by_perm. Qed.

Hypothesis leb_total : forall a b, leb a b = true \/ leb b a = true.
Hypothesis leb_trans : forall a b c, leb a b = true -> leb b c = true -> leb a c = true.

Lemma insert_row_sorted (x : A) (l : list A) :
  StronglySorted (fun a b => leb a b = true) l ->
  StronglySorted (fun a b => leb a b = true) (insert_row leb x l).
Proof.
  induction 1 as [|y t Hs IH Hall]; simpl.
  - repeat constructor.
  - destruct (leb x y) eqn:E.
    + constructor; [constructor; assumption|].
      constructor; [exact E|].
      rewrite Forall_forall in *. intros z Hz. eapply leb_trans; eauto.
    + constructor; [exact IH|].
      rewrite Forall_forall in *. intros z Hz.
      apply (Permutation_in _ (insert_row_perm x t)) in Hz.
      destruct Hz as [<-|Hz]; [|auto].
      destruct (leb_total x y) as [H|H]; congruence.
Qed.

Lemma order_by_sorted (l : list A) :
  StronglySorted (fun a b => leb a b = true) (order_by leb l).
Proof.
  induction l as [|x t IH]; simpl; [constructor | apply insert_row_sorted, IH].
Qed.

(** The row kept by [ORDER BY ... LIMIT 1] precedes every other row. *)
Lemma limit_1_order_by (l : list A) (x : A) :
  limit_1 (order_by leb l) = [x] ->
  In x l /\ forall y, In y l -> leb x y = true.
Proof.
  intros H. pose proof (order_by_sorted l) as Hs.
  destruct (order_by leb l) as [|h t] eqn:E; [discriminate|].
  unfold limit_1 in H; simpl in H. injection H as ->.
  assert (Hx : In x (order_by leb l)) by (rewrite E; left; reflexivity).
  split; [apply order_by_In, Hx|].
  intros y Hy. apply order_by_In in Hy. rewrite E in Hy.
  inversion Hs as [|? ? _ Hall]; subst.
  destruct Hy as [<-|Hy].
  - destruct (leb_total x x); assumption.
  - rewrite Forall_forall in Hall. auto.
Qed.

Lemma limit_1_order_by_nonempty (l : list A) :
  l <> [] -> exists x, limit_1 (order_by leb l) = [x].
Proof.
  intros Hne. destruct (order_by leb l) as [|h t] eqn:E.
  - apply (f_equal (@List.length A)) in E. rewrite order_by_length in E.
    destruct l; [congruence | discriminate].
  - exists h. reflexivity.
Qed.
End OrderBy.

(** ORDER BY commutes with a projection that keeps the sort key. *)
Lemma order_by_map {A B : Type} (f : A -> B) (lebA : A -> A -> bool)
  (lebB : B -> B -> bool) (l : list A) :
  (forall a b, lebB (f a) (f b) = lebA a b) ->
  order_by lebB (map f l) = map f (order_by lebA l).
Proof.
  intros Hk. induction l as [|x t IH]; simpl; [reflexivity|].
  rewrite IH. generalize (order_by lebA t) as s.
  induction s as [|y s IHs]; simpl; [reflexivity|].
  rewrite Hk. destruct (lebA x y); simpl; [reflexivity | now rewrite IHs].
Qed.

Lemma StronglySorted_map {A B : Type} (f : A -> B) (R : B -> B -> Prop) (l : list A) :
  StronglySorted (fun a b => R (f a) (f b)) l -> StronglySorted R (map f l).
Proof.
  induction 1 as [|x t Hs IH Hall]; simpl; constructor; auto.
  rewrite Forall_forall in *. intros y Hy.
  apply in_map_iff in Hy as [z [<- Hz]]. auto.
Qed.

(* ------------------------------------------------------------------ *)
(** ** The order on sort keys *)
(* ------------------------------------------------------------------ *)

Lemma string_leb_trans (a b c : string) :
  String.leb a b = true -> String.leb b c = true -> String.leb a c = true.
Proof.
  unfold String.leb. fold String_as_OT.cmp. intros Hab Hbc.
  destruct (String_as_OT.cmp a b) eqn:Eab; try discriminate;
    destruct (String_as_OT.cmp b c) eqn:Ebc; try discriminate.
  - apply String_as_OT.cmp_eq in Eab, Ebc. subst.
    rewrite (proj2 (String_as_OT.cmp_eq c c) eq_refl). reflexivity.
  - apply String_as_OT.cmp_eq in Eab. subst. rewrite Ebc. reflexivity.
  - apply String_as_OT.cmp_eq in Ebc. subst. rewrite Eab. reflexivity.
  - apply String_as_OT.cmp_lt in Eab, Ebc.
    pose proof (String_as_OT.lt_trans _ _ _ Eab Ebc) as H.
    apply String_as_OT.cmp_lt in H. rewrite H. reflexivity.
Qed.

Lemma text_leb_total (a b : option string) : text_leb a b = true \/ text_leb b a = true.
Proof.
  destruct a, b; simpl; auto. apply String.leb_total.
Qed.

Lemma text_leb_trans (a b c : option string) :
  text_leb a b = true -> text_leb b c = true -> text_leb a c = true.
Proof.
  destruct a, b, c; simpl; auto; try discriminate. apply string_leb_trans.
Qed.

Lemma key_leb_total (a b : Z * option string) : key_leb a b = true \/ key_leb b a = true.
Proof.
  unfold key_leb. destruct a as [p s], b as [q t]; simpl.
  destruct (Z.lt_trichotomy p q) as [H|[H|H]].
  - left. apply orb_true_iff. left. now apply Z.ltb_lt.
  - subst. rewrite Z.eqb_refl, Z.ltb_irrefl. simpl. apply text_leb_total.
  - right. apply orb_true_iff. left. now apply Z.ltb_lt.
Qed.

Lemma key_leb_trans (a b c : Z * option string) :
  key_leb a b = true -> key_leb b c = true -> key_leb a c = true.
Proof.
  unfold key_leb. destruct a as [p s], b as [q t], c as [r u]; simpl.
  rewrite !orb_true_iff, !andb_true_iff, !Z.ltb_lt, !Z.eqb_eq.
  intros [H1|[H1 T1]] [H2|[H2 T2]]; subst.
  - left. lia.
  - left. lia.
  - left. lia.
  - right. split; [reflexivity | eapply text_leb_trans; eauto].
Qed.

Lemma level_desc_total (a b : selection_id) :
  level_desc a b = true \/ level_desc b a = true.
Proof. unfold level_desc. rewrite !Z.leb_le. lia. Qed.

Lemma level_desc_trans (a b c : selection_id) :
  level_desc a b = true -> level_desc b c = true -> level_desc a c = true.
Proof. unfold level_desc. rewrite !Z.leb_le. lia. Qed.

(* ------------------------------------------------------------------ *)
(** ** Joins, DISTINCT and primary keys *)
(* ------------------------------------------------------------------ *)

Section Joins.
Context {A B : Type} (on : A -> B -> bool).

Lemma left_join_In (l : list A) (r : list B) (a : A) (ob : option B) :
  In (a, ob) (left_join on l r) ->
  In a l /\ match ob with
            | Some b => In b r /\ on a b = true
            | None => filter (on a) r = []
            end.
Proof.
  unfold left_join. rewrite in_flat_map. intros [x [Hx Hin]].
  destruct (filter (on x) r) as [|m ms] eqn:E.
  - destruct Hin as [Heq|[]]. injection Heq as <- <-. auto.
  - apply in_map_iff in Hin as [b [Heq Hb]]. injection Heq as <- <-.
    split; [assumption|]. rewrite <- E in Hb. apply filter_In in Hb. exact Hb.
Qed.

Lemma left_join_covers (l : list A) (r : list B) (a : A) :
  In a l -> exists ob, In (a, ob) (left_join on l r).
Proof.
  intros Ha. unfold left_join.
  destruct (filter (on a) r) as [|m ms] eqn:E.
  - exists None. apply in_flat_map. exists a. rewrite E. simpl; auto.
  - exists (Some m). apply in_flat_map. exists a. rewrite E. simpl; auto.
Qed.

(** When the ON clause matches at most one right row, the join has
    exactly one row per left row. *)
Lemma left_join_at_most_one (l : list A) (r : list B) :
  (forall a, In a l -> (List.length (filter (on a) r) <= 1)%nat) ->
  left_join on l r = map (fun a => (a, scalar (filter (on a) r))) l.
Proof.
  intros H. induction l as [|a t IH]; simpl; [reflexivity|].
  rewrite <- IH by (intros; apply H; right; assumption).
  f_equal. specialize (H a (or_introl eq_refl)).
  destruct (filter (on a) r) as [|m [|m' ms]]; simpl in *; try reflexivity; lia.
Qed.

Lemma join_In (l : list A) (r : list B) (a : A) (b : B) :
  In (a, b) (join on l r) <-> In a l /\ In b r /\ on a b = true.
Proof.
  unfold join. rewrite in_flat_map. split.
  - intros [x [Hx Hin]]. apply in_map_iff in Hin as [y [Heq Hy]].
    injection Heq as <- <-. apply filter_In in Hy. tauto.
  - intros [Ha [Hb Hon]]. exists a. split; [assumption|].
    apply in_map. apply filter_In. auto.
Qed.
End Joins.

Lemma existsb_eqb_In (x : Z) (l : list Z) : existsb (Z.eqb x) l = true <-> In x l.
Proof.
  rewrite existsb_exists. split.
  - intros [y [Hy E]]. apply Z.eqb_eq in E. now subst.
  - intros H. exists x. split; [assumption | apply Z.eqb_refl].
Qed.

Lemma distinct_In (l : list Z) (x : Z) : In x (distinct l) <-> In x l.
Proof.
  induction l as [|y t IH]; simpl; [tauto|].
  destruct (existsb (Z.eqb y) t) eqn:E.
  - rewrite IH. split; [auto|]. intros [<-|H]; [|assumption].
    now apply existsb_eqb_In.
  - simpl. rewrite IH. tauto.
Qed.

Lemma distinct_NoDup (l : list Z) : NoDup (distinct l).
Proof.
  induction l as [|y t IH]; simpl; [constructor|].
  destruct (existsb (Z.eqb y) t) eqn:E; [assumption|].
  constructor; [|assumption]. rewrite distinct_In. intros H.
  apply existsb_eqb_In in H. congruence.
Qed.

(** A column without duplicates holds a given value in at most one row. *)
Lemma unique_key_filter {A : Type} (key : A -> Z) (l : list A) (x : Z) :
  NoDup (map key l) ->
  (List.length (filter (fun a => Z.eqb x (key a)) l) <= 1)%nat.
Proof.
  induction l as [|a t IH]; simpl; intros H; [lia|].
  inversion H as [|? ? Hnotin Hnd]; subst.
  destruct (x =? key a) eqn:E; simpl; [|auto].
  apply Z.eqb_eq in E. subst.
  assert (Hnil : filter (fun b => key a =? key b) t = []).
  { destruct (filter (fun b => key a =? key b) t) as [|b bs] eqn:F; [reflexivity|].
    exfalso. assert (Hb : In b (filter (fun b => key a =? key b) t))
      by (rewrite F; left; reflexivity).
    apply filter_In in Hb as [Hb Hk]. apply Z.eqb_eq in Hk.
    apply Hnotin. rewrite Hk. now apply in_map. }
  rewrite Hnil. simpl. lia.
Qed.

Lemma scalar_filter_key {A : Type} (key : A -> Z) (l : list A) (x : Z) :
  is_not_null (scalar (filter (fun a => x =? key a) l)) = existsb (Z.eqb x) (map key l).
Proof.
  induction l as [|a t IH]; simpl; [reflexivity|].
  destruct (x =? key a); simpl; [reflexivity | exact IH].
Qed.

(* ------------------------------------------------------------------ *)
(** ** Query 2 and Query 5 *)
(* ------------------------------------------------------------------ *)

Lemma id_by_code_first (db : database) (s : string) (chosen : node) (others : list node) :
  filter (code_is s) (nodes db) = chosen :: others ->
  id_by_code db s = Some (id chosen).
Proof. unfold id_by_code. intros ->. reflexivity. Qed.

Lemma code_is_spec (s : string) (n : node) : code_is s n = true <-> code n = Some s.
Proof.
  unfold code_is, sql_eq. destruct (code n) as [c|].
  - rewrite String.eqb_eq. split; congruence.
  - split; discriminate.
Qed.

Lemma is_not_null_spec {A : Type} (a : option A) : is_not_null a = true <-> a <> None.
Proof. destruct a; simpl; split; congruence. Qed.

Lemma sql_eq_Z_spec (a : option Z) (b : Z) : sql_eq Z.eqb a (Some b) = true <-> a = Some b.
Proof.
  destruct a as [x|]; simpl.
  - rewrite Z.eqb_eq. split; congruence.
  - split; discriminate.
Qed.

(** C10.  Query 2 resolves [:parent_code] with a single-row subquery: when
    the code is borne by the nodes [chosen :: others] (in scan order), the
    rows returned are exactly the non-grouping direct children of
    [chosen], and no child of any other bearer of the code is returned. *)
Theorem get_children_single_parent (db : database) (parent_code : string)
  (chosen : node) (others : list node) :
  filter (code_is parent_code) (nodes db) = chosen :: others ->
  (forall n, In n (children_nodes db parent_code) <->
             In n (nodes db) /\ parent_id n = Some (id chosen) /\ code n <> None)
  /\ (forall r, In r (get_children db parent_code) <->
                exists n, In n (nodes db) /\ parent_id n = Some (id chosen)
                          /\ code n <> None /\ r = child_row_of n)
  /\ (forall m n, In m others -> id m <> id chosen -> parent_id n = Some (id m) ->
                  ~ In n (children_nodes db parent_code)).
Proof.
  intros Hsel.
  assert (Hrows : forall n, In n (children_nodes db parent_code) <->
             In n (nodes db) /\ parent_id n = Some (id chosen) /\ code n <> None).
  { intros n. unfold children_nodes. rewrite order_by_In, filter_In.
    rewrite (id_by_code_first _ _ _ _ Hsel), andb_true_iff.
    rewrite sql_eq_Z_spec, is_not_null_spec. tauto. }
  split; [exact Hrows|]. split.
  - intros r. unfold get_children. rewrite in_map_iff. split.
    + intros [n [<- Hn]]. apply Hrows in Hn. exists n. tauto.
    + intros [n [H1 [H2 [H3 ->]]]]. exists n. split; [reflexivity|].
      apply Hrows. tauto.
  - intros m n _ Hne Hp Hin. apply Hrows in Hin as [_ [Hp' _]]. congruence.
Qed.

Lemma get_children_single_parent_witness :
  filter (code_is "X") (nodes twin_db)
  = [selectable 2 (Some 1) 1 "X" 2; selectable 4 (Some 3) 2 "X" 4]
  /\ ~ In (selectable 5 (Some 4) 3 "Z" 6) (children_nodes twin_db "X").
Proof.
  split; [reflexivity|].
  apply (proj2 (proj2 (get_children_single_parent twin_db "X"
                         (selectable 2 (Some 1) 1 "X" 2)
                         [selectable 4 (Some 3) 2 "X" 4] eq_refl))
           (selectable 4 (Some 3) 2 "X" 4)).
  - left; reflexivity.
  - simpl; lia.
  - reflexivity.
Defined.

Lemma find_by_code_rows_In (db : database) (s : string) (n : node) (p : option node) :
  In (n, p) (find_by_code_rows db s) ->
  In n (nodes db) /\ code n = Some s.
Proof.
  unfold find_by_code_rows. rewrite order_by_In, filter_In. simpl.
  intros [Hj Hc]. apply left_join_In in Hj. apply code_is_spec in Hc. tauto.
Qed.

(** C9.  Query 5 returns every node whose code equals the search string
    and nothing else; with [id] a key, each such node is returned once. *)
Theorem find_by_code_all_occurrences (db : database) (search_code : string) :
  (forall n, In n (nodes db) -> code n = Some search_code ->
     exists r, In r (find_by_code db search_code)
               /\ f_id r = id n /\ f_code r = code n /\ f_label r = label n
               /\ f_level r = level n /\ f_full_typecode r = full_typecode n)
  /\ (forall r, In r (find_by_code db search_code) ->
        exists n, In n (nodes db) /\ code n = Some search_code
                  /\ f_id r = id n /\ f_code r = code n /\ f_label r = label n
                  /\ f_level r = level n /\ f_full_typecode r = full_typecode n)
  /\ (NoDup (map id (nodes db)) ->
      Permutation (map f_id (find_by_code db search_code))
                  (map id (filter (code_is search_code) (nodes db)))).
Proof.
  split; [|split].
  - intros n Hn Hc.
    destruct (left_join_covers
                (fun n p => sql_eq Z.eqb (parent_id n) (Some (id p)))
                (nodes db) (nodes db) n Hn) as [p Hp].
    exists (found_row_of (n, p)). split; [|simpl; tauto].
    unfold find_by_code. apply in_map. unfold find_by_code_rows.
    rewrite order_by_In, filter_In. simpl. split; [assumption|].
    now apply code_is_spec.
  - intros r Hr. unfold find_by_code in Hr. apply in_map_iff in Hr as [[n p] [<- Hnp]].
    apply find_by_code_rows_In in Hnp. exists n. simpl. tauto.
  - intros Hnd. unfold find_by_code, find_by_code_rows.
    rewrite map_map.
    eapply perm_trans; [apply Permutation_map; apply order_by_perm|].
    rewrite left_join_at_most_one.
    + clear Hnd. generalize (nodes db) at 1 as r. intros r.
      induction (nodes db) as [|n t IH]; simpl; [constructor|].
      destruct (code_is search_code n); simpl; [apply perm_skip|]; exact IH.
    + intros n _. destruct (parent_id n) as [x|]; simpl.
      * apply (unique_key_filter id (nodes db) x Hnd).
      * clear. induction (nodes db); simpl; auto.
Qed.

Lemma find_by_code_all_occurrences_witness :
  Permutation (map f_id (find_by_code twin_db "X")) [2; 4].
Proof.
  apply (proj2 (proj2 (find_by_code_all_occurrences twin_db "X"))).
  repeat constructor; simpl; intuition lia.
Defined.

(* ------------------------------------------------------------------ *)
(** ** Query 4: candidates and the two checks *)
(* ------------------------------------------------------------------ *)

Lemma NoDup_map_filter {A : Type} (key : A -> Z) (P : A -> bool) (l : list A) :
  NoDup (map key l) -> NoDup (map key (filter P l)).
Proof.
  induction l as [|a t IH]; simpl; intros H; [constructor|].
  inversion H as [|? ? Hnotin Hnd]; subst.
  destruct (P a); simpl; [|auto].
  constructor; [|auto]. intros Hin. apply Hnotin.
  apply in_map_iff in Hin as [b [Hk Hb]]. apply filter_In in Hb as [Hb _].
  rewrite <- Hk. now apply in_map.
Qed.

Lemma candidates_In (db : database) (t : Z) (c : candidate) :
  In c (candidates db t) <->
  exists n, In n (nodes db) /\ level n = t /\ code n <> None /\ c = candidate_of n.
Proof.
  unfold candidates. rewrite in_map_iff. split.
  - intros [n [<- Hn]]. apply filter_In in Hn as [Hn Hc].
    apply andb_true_iff in Hc as [Hl Hc]. apply Z.eqb_eq in Hl.
    apply is_not_null_spec in Hc. exists n. tauto.
  - intros [n [Hn [Hl [Hc ->]]]]. exists n. split; [reflexivity|].
    apply filter_In. split; [assumption|]. apply andb_true_iff.
    split; [now apply Z.eqb_eq | now apply is_not_null_spec].
Qed.

Lemma candidates_key (db : database) (t : Z) :
  NoDup (map id (nodes db)) -> NoDup (map c_id (candidates db t)).
Proof.
  intros H. unfold candidates. rewrite map_map. simpl.
  apply (NoDup_map_filter id). exact H.
Qed.

Lemma path_exists_spec (db : database) (a d : Z) :
  path_exists db a d = true <->
  exists np, In np (node_paths db) /\ ancestor_id np = a /\ descendant_id np = d.
Proof.
  unfold path_exists. rewrite existsb_exists. split.
  - intros [np [Hin H]]. apply andb_true_iff in H as [Ha Hd].
    apply Z.eqb_eq in Ha, Hd. eauto.
  - intros [np [Hin [Ha Hd]]]. exists np. split; [assumption|].
    apply andb_true_iff. split; now apply Z.eqb_eq.
Qed.

Lemma last_selection_cases (db : database) (sels : list selection) :
  (selection_ids db sels = [] /\ last_selection db sels = [])
  \/ exists ls, last_selection db sels = [ls]
                /\ In ls (selection_ids db sels)
                /\ forall si, In si (selection_ids db sels) -> si_level si <= si_level ls.
Proof.
  unfold last_selection. destruct (selection_ids db sels) as [|s l] eqn:E.
  - left. split; reflexivity.
  - right.
    destruct (limit_1_order_by_nonempty level_desc (s :: l)) as [ls Hls]; [discriminate|].
    exists ls. split; [exact Hls|].
    destruct (limit_1_order_by level_desc level_desc_total level_desc_trans _ _ Hls)
      as [Hin Hmax].
    split; [exact Hin|]. intros si Hsi. specialize (Hmax si Hsi).
    unfold level_desc in Hmax. now apply Z.leb_le.
Qed.

(** The forward check of the statement: the candidate is a descendant, in
    the closure table, of the one row of [last_selection]. *)
Lemma forward_pass_spec (db : database) (t : Z) (sels : list selection) (cid : Z) :
  forward_pass db t sels cid = true <->
  In cid (map c_id (candidates db t))
  /\ exists ls, In ls (last_selection db sels) /\ path_exists db (si_id ls) cid = true.
Proof.
  unfold forward_pass, forward_compatible.
  rewrite existsb_eqb_In, distinct_In, in_map_iff. split.
  - intros [[[np ls] c] [Hd Hin]]. simpl in Hd.
    apply join_In in Hin as [Hin [Hc Hon]]. apply join_In in Hin as [Hnp [Hls Hon']].
    simpl in Hon. apply Z.eqb_eq in Hon, Hon'. split.
    + apply in_map_iff. exists c. split; [congruence | assumption].
    + exists ls. split; [assumption|]. apply path_exists_spec. exists np. auto.
  - intros [Hc [ls [Hls Hp]]]. apply in_map_iff in Hc as [c [Hid Hc]].
    apply path_exists_spec in Hp as [np [Hnp [Ha Hd]]].
    exists (np, ls, c). simpl. split; [assumption|].
    apply join_In. split; [|split; [assumption | simpl; apply Z.eqb_eq; congruence]].
    apply join_In. split; [assumption|split; [assumption | now apply Z.eqb_eq]].
Qed.

(** The backward check of the statement: the candidate is an ancestor, in
    the closure table, of every matched selection below the target level. *)
Lemma backward_pass_spec (db : database) (t : Z) (sels : list selection) (cid : Z) :
  backward_pass db t sels cid = true <->
  In cid (map c_id (candidates db t))
  /\ forall si, In si (selection_ids db sels) -> si_level si < t ->
                path_exists db cid (si_id si) = true.
Proof.
  unfold backward_pass, backward_compatible.
  rewrite existsb_eqb_In, !in_map_iff. split.
  - intros [c [<- Hc]]. apply filter_In in Hc as [Hc Hall]. split; [eauto|].
    intros si Hsi Hlt. apply negb_true_iff in Hall.
    destruct (path_exists db (c_id c) (si_id si)) eqn:E; [reflexivity|].
    exfalso. rewrite <- not_true_iff_false in Hall. apply Hall.
    apply existsb_exists. exists si. split; [assumption|].
    apply andb_true_iff. split; [now apply Z.ltb_lt|].
    apply negb_true_iff. exact E.
  - intros [[c [<- Hc]] Hall]. exists c. split; [reflexivity|].
    apply filter_In. split; [assumption|]. apply negb_true_iff.
    apply not_true_iff_false. intros Hex.
    apply existsb_exists in Hex as [si [Hsi H]].
    apply andb_true_iff in H as [Hlt Hno]. apply Z.ltb_lt in Hlt.
    apply negb_true_iff in Hno. specialize (Hall si Hsi Hlt).
    unfold path_exists in Hall. congruence.
Qed.

(** With [id] a key of [nodes], both LEFT JOINs of the final SELECT match
    at most one row, and the statement is a map over the candidates. *)
Lemma available_options_closed_form (db : database) (t : Z) (sels : list selection) :
  NoDup (map id (nodes db)) ->
  available_options db t sels
  = map (flagged db t sels) (order_by candidate_leb (candidates db t)).
Proof.
  intros Hnd. unfold available_options.
  rewrite (left_join_at_most_one (fun c fc => c_id c =? fc)).
  2:{ intros c _. apply (unique_key_filter (fun z => z)).
      rewrite map_id. apply distinct_NoDup. }
  rewrite (left_join_at_most_one (fun cfc bc => c_id (fst cfc) =? bc)).
  2:{ intros cfc _. apply (unique_key_filter (fun z => z)).
      rewrite map_id. unfold backward_compatible.
      apply (NoDup_map_filter c_id). now apply candidates_key. }
  rewrite map_map.
  rewrite (order_by_map _ candidate_leb) by reflexivity.
  rewrite map_map. apply map_ext. intros c. unfold flagged. simpl.
  rewrite !(scalar_filter_key (fun z => z)), !map_id. reflexivity.
Qed.

(* ------------------------------------------------------------------ *)
(** ** Query 4: the result *)
(* ------------------------------------------------------------------ *)

(** C4.  The flag of every candidate is the conjunction of its forward
    check and its backward check: the statement returns, for the
    candidates in result order, the row [flagged] of each. *)
Theorem is_compatible_conjunction (db : database) (target_level : Z)
  (current_selections : list selection) :
  NoDup (map id (nodes db)) ->
  available_options db target_level current_selections
  = map (fun c =>
           mk_option_row (c_code c) (c_label c) (c_position c) (c_group_name c)
             (c_level c)
             (forward_pass db target_level current_selections (c_id c)
              && backward_pass db target_level current_selections (c_id c)))
        (order_by candidate_leb (candidates db target_level)).
Proof. intros Hnd. now apply available_options_closed_form. Qed.

Lemma car_ids_NoDup : NoDup (map id (nodes car_db)).
Proof. repeat constructor; simpl; intuition lia. Defined.

Lemma is_compatible_conjunction_witness :
  available_options car_db 2 [mk_selection "ENGINE-A" 1]
  = map (fun c =>
           mk_option_row (c_code c) (c_label c) (c_position c) (c_group_name c)
             (c_level c)
             (forward_pass car_db 2 [mk_selection "ENGINE-A" 1] (c_id c)
              && backward_pass car_db 2 [mk_selection "ENGINE-A" 1] (c_id c)))
        (order_by candidate_leb (candidates car_db 2)).
Proof. apply (is_compatible_conjunction car_db 2 _ car_ids_NoDup). Defined.

(** C3.  With no selections the resolver runs the simplified statement,
    which returns a row for every non-grouping node at the target level,
    only such rows, and flags every row compatible. *)
Theorem no_selections_all_compatible (db : database) (target_level : Z) :
  resolve_options db target_level [] = options_no_selections db target_level
  /\ (forall n, In n (nodes db) -> level n = target_level -> code n <> None ->
       In (mk_option_row (code n) (label n) (position n) (group_name n) (level n) true)
          (options_no_selections db target_level))
  /\ (forall r, In r (options_no_selections db target_level) ->
        r_is_compatible r = true
        /\ exists n, In n (nodes db) /\ level n = target_level /\ code n <> None
                     /\ r_code r = code n /\ r_label r = label n)
  /\ List.length (options_no_selections db target_level)
     = List.length (candidates db target_level).
Proof.
  split; [reflexivity|]. unfold options_no_selections. split; [|split].
  - intros n Hn Hl Hc. apply in_map_iff. exists n. split; [reflexivity|].
    apply order_by_In, filter_In. split; [assumption|].
    apply andb_true_iff. split; [now apply Z.eqb_eq | now apply is_not_null_spec].
  - intros r Hr. apply in_map_iff in Hr as [n [<- Hn]].
    apply order_by_In, filter_In in Hn as [Hn Hc].
    apply andb_true_iff in Hc as [Hl Hc]. apply Z.eqb_eq in Hl.
    apply is_not_null_spec in Hc. split; [reflexivity|]. exists n. simpl. tauto.
  - unfold candidates. now rewrite !length_map, order_by_length.
Qed.

Lemma option_rows_sorted {A : Type} (key : A -> Z * option string)
  (f : A -> option_row) (l : list A) :
  (forall a, (r_position (f a), r_code (f a)) = key a) ->
  StronglySorted (fun a b => option_row_leb a b = true)
    (map f (order_by (fun a b => key_leb (key a) (key b)) l)).
Proof.
  intros Hk. apply StronglySorted_map.
  pose proof (order_by_sorted (fun a b => key_leb (key a) (key b))
                (fun a b => key_leb_total (key a) (key b))
                (fun a b c => key_leb_trans (key a) (key b) (key c)) l) as Hs.
  induction Hs as [|a s _ IH Hall]; constructor; [exact IH|].
  rewrite Forall_forall in *. intros b Hb. unfold option_row_leb.
  rewrite !Hk. auto.
Qed.

(** C8 (as amended).  The rows are in ascending order of position, then
    code, and each row carries the columns code, label, position,
    group_name and level of a non-grouping node at the target level,
    together with the flag. *)
Theorem result_ordered_by_position_code (db : database) (target_level : Z)
  (current_selections : list selection) :
  StronglySorted (fun a b => option_row_leb a b = true)
    (resolve_options db target_level current_selections)
  /\ forall r, In r (resolve_options db target_level current_selections) ->
       exists n, In n (nodes db) /\ level n = target_level /\ code n <> None
                 /\ r_code r = code n /\ r_label r = label n
                 /\ r_position r = position n /\ r_group_name r = group_name n
                 /\ r_level r = level n.
Proof.
  destruct current_selections as [|s sels]; simpl.
  - split.
    + unfold options_no_selections. apply (option_rows_sorted node_order_key).
      reflexivity.
    + intros r Hr. unfold options_no_selections in Hr.
      apply in_map_iff in Hr as [n [<- Hn]].
      apply order_by_In, filter_In in Hn as [Hn Hc].
      apply andb_true_iff in Hc as [Hl Hc]. apply Z.eqb_eq in Hl.
      apply is_not_null_spec in Hc. exists n. simpl. tauto.
  - split.
    + unfold available_options.
      apply (option_rows_sorted (fun r => candidate_order_key (fst (fst r)))).
      intros [[c fc] bc]. reflexivity.
    + intros r Hr. unfold available_options in Hr.
      apply in_map_iff in Hr as [[[c fc] bc] [<- Hin]].
      apply order_by_In in Hin. apply left_join_In in Hin as [Hin _].
      apply left_join_In in Hin as [Hin _].
      apply candidates_In in Hin as [n [Hn [Hl [Hc ->]]]].
      exists n. simpl. tauto.
Qed.

(** C8, the claim as stated: no reading of a result row yields the
    [full_typecode] of the candidate it stands for.  The stores [car_db]
    and [car_db_typecode] differ only in that column (and the
    intermediate flag) of TRANS-X and give the same rows. *)
Lemma result_carries_no_typecode :
  ~ exists get : option_row -> option string,
      forall db t sels n,
        In n (nodes db) -> level n = t -> code n <> None ->
        exists r, In r (resolve_options db t sels)
                  /\ r_code r = code n /\ get r = full_typecode n.
Proof.
  intros [get H].
  set (sels := [mk_selection "ENGINE-A" 1]).
  set (x := selectable 4 (Some 2) 2 "TRANS-X" 13).
  set (x' := mk_node 4 (Some 2) 2 (Some "TRANS-X") "option" "TRANS-X" None 13 None
                     (Some "CAR ENGINE-A-TRANS-X") true None).
  assert (Hrow : forall r, In r (resolve_options car_db 2 sels) ->
                 r_code r = Some "TRANS-X" ->
                 r = mk_option_row (Some "TRANS-X") "TRANS-X" 13 None 2 false).
  { intros r Hr Hc. vm_compute in Hr.
    destruct Hr as [<-|[<-|[<-|[]]]]; [reflexivity | discriminate | discriminate]. }
  assert (Hsame : resolve_options car_db_typecode 2 sels = resolve_options car_db 2 sels)
    by (vm_compute; reflexivity).
  destruct (H car_db 2 sels x) as [r [Hr [Hc Hg]]];
    [vm_compute; tauto | reflexivity | discriminate |].
  destruct (H car_db_typecode 2 sels x') as [r' [Hr' [Hc' Hg']]];
    [vm_compute; tauto | reflexivity | discriminate |].
  rewrite Hsame in Hr'.
  rewrite (Hrow r Hr Hc) in Hg. rewrite (Hrow r' Hr' Hc') in Hg'.
  simpl in Hg, Hg'. congruence.
Qed.

(** C1 (as amended).  When every matched selection lies below the target
    level, a candidate passes the forward check exactly when it is a
    descendant, in the closure table, of the selection the statement
    takes as last: a [before] selection of the highest level.  No
    reachability between [before] selections enters the check. *)
Theorem forward_check_from_last_selection (db : database) (target_level : Z)
  (current_selections : list selection) (cid : Z) :
  (forall si, In si (selection_ids db current_selections) ->
              si_level si < target_level) ->
  (forward_pass db target_level current_selections cid = true <->
   In cid (map c_id (candidates db target_level))
   /\ exists ls, last_selection db current_selections = [ls]
                 /\ In (si_id ls) (before db target_level current_selections)
                 /\ (forall si, In si (selection_ids db current_selections) ->
                                si_level si <= si_level ls)
                 /\ path_exists db (si_id ls) cid = true).
Proof.
  intros Hbelow. rewrite forward_pass_spec. split.
  - intros [Hc [ls [Hls Hp]]]. split; [assumption|].
    destruct (last_selection_cases db current_selections)
      as [[_ Hnil]|[ls' [Heq [Hin Hmax]]]].
    + rewrite Hnil in Hls. destruct Hls.
    + rewrite Heq in Hls. destruct Hls as [<-|[]].
      exists ls'. split; [assumption|]. split; [|split; assumption].
      unfold before. apply in_map. apply order_by_In, filter_In.
      split; [assumption|]. apply Z.ltb_lt. auto.
  - intros [Hc [ls [Heq [_ [_ Hp]]]]]. split; [assumption|].
    exists ls. rewrite Heq. split; [left; reflexivity | assumption].
Qed.

Lemma forward_check_from_last_selection_witness :
  forward_pass car_db 2 [mk_selection "ENGINE-A" 1] 4 = true.
Proof.
  apply (forward_check_from_last_selection car_db 2 [mk_selection "ENGINE-A" 1] 4).
  - intros si Hsi. vm_compute in Hsi. destruct Hsi as [<-|[]]. simpl. lia.
  - split; [vm_compute; tauto|].
    exists (mk_selection_id 2 1).
    split; [reflexivity|]. split; [vm_compute; tauto|]. split; [|reflexivity].
    intros si Hsi. vm_compute in Hsi. destruct Hsi as [<-|[]]. simpl. lia.
Defined.

(** C1, the claim as stated: ENGINE-B and TRANS-X are both below level 3
    and TRANS-X is not reachable from ENGINE-B, so no chain runs through
    [before]; RED still passes the forward check. *)
Lemma forward_check_skips_chain :
  before car_db 3 [mk_selection "ENGINE-B" 1; mk_selection "TRANS-X" 2] = [3; 4]
  /\ In 7 (map c_id (candidates car_db 3))
  /\ forward_pass car_db 3 [mk_selection "ENGINE-B" 1; mk_selection "TRANS-X" 2] 7 = true
  /\ spec_forward_check car_db 3 [mk_selection "ENGINE-B" 1; mk_selection "TRANS-X" 2] 7
     = false.
Proof. vm_compute. tauto. Qed.

(** With a selection above the target level as well, [last_selection] is
    that selection (RED), and TRANS-X fails the forward check although
    it is reachable from ENGINE-A. *)
Example forward_check_with_later_selection :
  last_selection car_db [mk_selection "ENGINE-A" 1; mk_selection "RED" 3]
  = [mk_selection_id 7 3]
  /\ path_exists car_db 2 4 = true
  /\ forward_pass car_db 2 [mk_selection "ENGINE-A" 1; mk_selection "RED" 3] 4 = false.
Proof. vm_compute. tauto. Qed.

(** C2, evaluated.  With RED selected at level 3 and target level 2, the
    backward check of the statement passes TRANS-Z although RED is not
    reachable from TRANS-Z: selections above the target level are never
    tested.  With ENGINE-A selected as well, it fails TRANS-X, from which
    RED is reachable, because TRANS-X is no ancestor of ENGINE-A. *)
Theorem backward_check_ignores_later_selections :
  (after car_db 2 [mk_selection "RED" 3] = [7]
   /\ In 6 (map c_id (candidates car_db 2))
   /\ path_exists car_db 6 7 = false
   /\ spec_backward_check car_db 2 [mk_selection "RED" 3] 6 = false
   /\ backward_pass car_db 2 [mk_selection "RED" 3] 6 = true)
  /\ (after car_db 2 [mk_selection "ENGINE-A" 1; mk_selection "RED" 3] = [7]
      /\ In 4 (map c_id (candidates car_db 2))
      /\ path_exists car_db 4 7 = true
      /\ spec_backward_check car_db 2
           [mk_selection "ENGINE-A" 1; mk_selection "RED" 3] 4 = true
      /\ backward_pass car_db 2
           [mk_selection "ENGINE-A" 1; mk_selection "RED" 3] 4 = false).
Proof. vm_compute. tauto. Qed.

Lemma selection_ids_In (db : database) (sels : list selection) (si : selection_id) :
  In si (selection_ids db sels) <->
  exists cs n, In cs sels /\ In n (nodes db)
               /\ code n = Some (cs_code cs) /\ level n = cs_level cs
               /\ si = mk_selection_id (id n) (cs_level cs).
Proof.
  unfold selection_ids. rewrite in_map_iff. split.
  - intros [[cs n] [<- Hj]]. apply join_In in Hj as [Hcs [Hn Hon]].
    apply andb_true_iff in Hon as [Hc Hl]. apply Z.eqb_eq in Hl.
    exists cs, n. simpl. repeat split; try assumption.
    destruct (code n) as [c|]; simpl in Hc; [|discriminate].
    apply String.eqb_eq in Hc. now subst.
  - intros [cs [n [Hcs [Hn [Hc [Hl ->]]]]]]. exists (cs, n). split; [reflexivity|].
    apply join_In. split; [assumption|]. split; [assumption|].
    apply andb_true_iff. split; [|now apply Z.eqb_eq].
    rewrite Hc. simpl. apply String.eqb_refl.
Qed.

(** C5 (as amended).  A selection list with two entries at one level,
    matched by two different nodes, is not rejected: both nodes enter
    [selection_ids], the forward check follows a single matched selection
    of the highest level, and the resolver returns one row per
    candidate. *)
Theorem duplicate_level_not_rejected (db : database) (target_level : Z)
  (current_selections : list selection) (s1 s2 : selection) (n1 n2 : node) :
  NoDup (map id (nodes db)) ->
  In s1 current_selections -> In s2 current_selections ->
  cs_level s1 = cs_level s2 ->
  In n1 (nodes db) -> code n1 = Some (cs_code s1) -> level n1 = cs_level s1 ->
  In n2 (nodes db) -> code n2 = Some (cs_code s2) -> level n2 = cs_level s2 ->
  id n1 <> id n2 ->
  In (mk_selection_id (id n1) (cs_level s1)) (selection_ids db current_selections)
  /\ In (mk_selection_id (id n2) (cs_level s1)) (selection_ids db current_selections)
  /\ (exists ls, last_selection db current_selections = [ls]
                 /\ In ls (selection_ids db current_selections)
                 /\ forall si, In si (selection_ids db current_selections) ->
                               si_level si <= si_level ls)
  /\ List.length (resolve_options db target_level current_selections)
     = List.length (candidates db target_level).
Proof.
  intros Hnd H1 H2 Hlvl Hn1 Hc1 Hl1 Hn2 Hc2 Hl2 _.
  assert (Hs1 : In (mk_selection_id (id n1) (cs_level s1))
                   (selection_ids db current_selections)).
  { apply selection_ids_In. exists s1, n1. auto. }
  split; [exact Hs1|]. split; [|split].
  - apply selection_ids_In. exists s2, n2. rewrite Hlvl. auto.
  - destruct (last_selection_cases db current_selections) as [[Hnil _]|H];
      [|exact H].
    rewrite Hnil in Hs1. destruct Hs1.
  - destruct current_selections as [|s sels]; [destruct H1|].
    simpl. rewrite available_options_closed_form by assumption.
    now rewrite length_map, order_by_length.
Qed.

Lemma duplicate_level_not_rejected_witness :
  List.length (resolve_options car_db 2
                 [mk_selection "ENGINE-A" 1; mk_selection "ENGINE-B" 1])
  = List.length (candidates car_db 2).
Proof.
  apply (duplicate_level_not_rejected car_db 2
           [mk_selection "ENGINE-A" 1; mk_selection "ENGINE-B" 1]
           (mk_selection "ENGINE-A" 1) (mk_selection "ENGINE-B" 1)
           (selectable 2 (Some 1) 1 "ENGINE-A" 5)
           (selectable 3 (Some 1) 1 "ENGINE-B" 5) car_ids_NoDup).
  - left; reflexivity.
  - right; left; reflexivity.
  - reflexivity.
  - right; left; reflexivity.
  - reflexivity.
  - reflexivity.
  - right; right; left; reflexivity.
  - reflexivity.
  - reflexivity.
  - simpl; lia.
Defined.

(** C5, the claim as stated: ENGINE-A and ENGINE-B both claim level 1.
    The resolver returns its three rows, and its forward check has
    followed ENGINE-A alone. *)
Lemma duplicate_level_picks_one :
  last_selection car_db [mk_selection "ENGINE-A" 1; mk_selection "ENGINE-B" 1]
  = [mk_selection_id 2 1]
  /\ forward_compatible car_db 2 [mk_selection "ENGINE-A" 1; mk_selection "ENGINE-B" 1]
     = [4; 5]
  /\ map r_code (resolve_options car_db 2
                   [mk_selection "ENGINE-A" 1; mk_selection "ENGINE-B" 1])
     = [Some "TRANS-X"; Some "TRANS-Y"; Some "TRANS-Z"].
Proof. vm_compute. tauto. Qed.

(* ------------------------------------------------------------------ *)
(** ** The closure triggers *)
(* ------------------------------------------------------------------ *)

(** C6, evaluated.  Inserting a family root and then one child into the
    empty schema reaches a store whose closure table holds the child's
    reflexive row only: the trigger skips the root, so neither the row
    (root, root, 0) nor the row (root, child, 1) exists, although walking
    [parent_id] from the child reaches the root in one step. *)
Theorem root_insert_leaves_closure_incomplete :
  exists db,
    root_then_child = Some db
    /\ reachable db
    /\ map id (nodes db) = [1; 2]
    /\ node_paths db = [mk_path 2 2 0]
    /\ ancestor_at db 1 0 = Some 1
    /\ ancestor_at db 2 1 = Some 1
    /\ ~ closure_complete db.
Proof.
  eexists. split; [vm_compute; reflexivity|].
  split.
  - eapply reachable_insert with (new := selectable 2 (Some 1) 1 "ENGINE-A" 5).
    + eapply reachable_insert with (new := selectable 1 None 0 "CAR" 0).
      * apply reachable_empty.
      * vm_compute. reflexivity.
    + vm_compute. reflexivity.
  - split; [reflexivity|]. split; [reflexivity|].
    split; [reflexivity|]. split; [reflexivity|].
    intros Hc. destruct (Hc 1 2 1) as [_ Hin].
    assert (H : In (mk_path 1 2 1) [mk_path 2 2 0]).
    { apply Hin. split.
      - eexists. split; [right; left; reflexivity | reflexivity].
      - exists 1%nat. split; reflexivity. }
    destruct H as [H|[]]. discriminate.
Qed.

(* ------------------------------------------------------------------ *)
(** ** Query 3: the recursion and the closure table *)
(* ------------------------------------------------------------------ *)

Lemma sql_max_fold (l : list Z) (x : Z) :
  let m := fold_left Z.max l x in
  (m = x \/ In m l) /\ x <= m /\ forall y, In y l -> y <= m.
Proof.
  revert x. induction l as [|y t IH]; intros x; simpl.
  - split; [auto|]. split; [lia|]. intros y [].
  - destruct (IH (Z.max x y)) as [Hm [Hle Hall]]. split; [|split].
    + destruct Hm as [Hm|Hm]; [|auto]. rewrite Hm.
      destruct (Z.max_spec x y) as [[_ ->]|[_ ->]]; auto.
    + lia.
    + intros z [<-|Hz]; [lia | auto].
Qed.

Lemma sql_max_spec (l : list Z) (m : Z) :
  sql_max l = Some m <-> In m l /\ forall y, In y l -> y <= m.
Proof.
  destruct l as [|x t]; simpl.
  - split; [discriminate | intros [[] _]].
  - destruct (sql_max_fold t x) as [Hm [Hle Hall]]. split.
    + intros H. injection H as <-. split.
      * destruct Hm as [->|Hm]; auto.
      * intros y [<-|Hy]; auto.
    + intros [Hin Hub]. f_equal. apply Z.le_antisymm.
      * destruct Hm as [->|Hm]; [apply Hub; auto | apply Hub; auto].
      * destruct Hin as [<-|Hin]; auto.
Qed.

(** MAX depends on the set of values only. *)
Lemma sql_max_ext (l1 l2 : list Z) :
  (forall z, In z l1 <-> In z l2) -> sql_max l1 = sql_max l2.
Proof.
  intros H. destruct (sql_max l1) as [m|] eqn:E1.
  - symmetry. apply sql_max_spec. apply sql_max_spec in E1 as [Hin Hub].
    split; [now apply H|]. intros y Hy. apply Hub. now apply H.
  - destruct l1 as [|x t]; [|discriminate].
    destruct l2 as [|y u]; [reflexivity|].
    destruct (proj2 (H y) (or_introl eq_refl)).
Qed.

Section WalkingUp.
Variable db : database.
Hypothesis ids_key : NoDup (map id (nodes db)).

Lemma find_node_In (i : Z) (n : node) :
  find_node db i = Some n -> In n (nodes db) /\ id n = i.
Proof.
  unfold find_node. intros H. apply find_some in H as [Hin Hid].
  apply Z.eqb_eq in Hid. auto.
Qed.

Lemma find_node_key (n : node) : In n (nodes db) -> find_node db (id n) = Some n.
Proof.
  unfold find_node. revert ids_key.
  induction (nodes db) as [|m t IH]; simpl; intros Hnd Hin; [destruct Hin|].
  inversion Hnd as [|? ? Hnotin Hnd']; subst.
  destruct Hin as [->|Hin].
  - now rewrite Z.eqb_refl.
  - destruct (id m =? id n) eqn:E; [|auto].
    apply Z.eqb_eq in E. exfalso. apply Hnotin. rewrite E. now apply in_map.
Qed.

Lemma parent_of_key (n : node) : In n (nodes db) -> parent_of db (id n) = parent_id n.
Proof. intros H. unfold parent_of. now rewrite find_node_key. Qed.

Lemma parent_of_node (i p : Z) :
  parent_of db i = Some p ->
  exists n, In n (nodes db) /\ id n = i /\ parent_id n = Some p.
Proof.
  unfold parent_of. destruct (find_node db i) as [n|] eqn:E; [|discriminate].
  intros H. apply find_node_In in E. exists n. tauto.
Qed.

(** Walking up from [i] stays on stored nodes when it ends on one. *)
Lemma ancestor_at_start_node (i a : Z) (k : nat) :
  ancestor_at db i k = Some a ->
  (exists n, In n (nodes db) /\ id n = a) ->
  exists n, In n (nodes db) /\ id n = i.
Proof.
  destruct k as [|k]; simpl.
  - intros H. injection H as ->. auto.
  - destruct (parent_of db i) as [p|] eqn:E; [|discriminate].
    intros _ _. apply parent_of_node in E as [n [Hn [Hi _]]]. eauto.
Qed.

Hypothesis parents_lower : parents_first db.

Lemma ancestor_at_lower (i a : Z) (k : nat) :
  ancestor_at db i k = Some a -> a + Z.of_nat k <= i.
Proof.
  revert i. induction k as [|k IH]; intros i; simpl.
  - intros H. injection H as ->. lia.
  - destruct (parent_of db i) as [p|] eqn:E; [|discriminate].
    intros H. apply IH in H. apply parent_of_node in E as [n [Hn [Hi Hp]]].
    destruct (parents_lower n Hn) as [_ Hlt]. specialize (Hlt p Hp). lia.
Qed.

Lemma id_le_max (n : node) :
  In n (nodes db) -> id n <= fold_right Z.max 0 (map id (nodes db)).
Proof.
  clear. induction (nodes db) as [|m t IH]; simpl; intros Hin; [destruct Hin|].
  destruct Hin as [->|Hin]; [lia|]. specialize (IH Hin). lia.
Qed.

Variable a : Z.
Hypothesis a_node : exists n, In n (nodes db) /\ id n = a.

(** Round [k] holds the nodes that lie [k] steps below the start node,
    each with depth [k]. *)
Lemma depth_calc_round_In (k : nat) (r : depth_row) :
  In r (depth_calc_round db k [mk_depth_row a 0]) <->
  d_depth r = Z.of_nat k
  /\ exists n, In n (nodes db) /\ id n = d_id r /\ ancestor_at db (d_id r) k = Some a.
Proof.
  assert (Hgen : forall k w r,
    In r (depth_calc_round db (S k) w) <-> In r (depth_calc_step db (depth_calc_round db k w))).
  { clear. intros k. induction k as [|k IH]; intros w r; simpl; [tauto|].
    rewrite <- IH. simpl. tauto. }
  revert r. induction k as [|k IH]; intros r.
  - simpl. split.
    + intros [<-|[]]. simpl. split; [reflexivity|].
      destruct a_node as [n [Hn Hi]]. exists n. auto.
    + intros [Hd [n [_ [_ Ha]]]]. left. destruct r as [i d]; simpl in *.
      injection Ha as ->. now subst.
  - rewrite Hgen. unfold depth_calc_step. rewrite in_map_iff. split.
    + intros [[n r'] [<- Hj]]. apply join_In in Hj as [Hn [Hr' Hon]].
      apply IH in Hr' as [Hd [n' [Hn' [Hi' Ha']]]].
      apply sql_eq_Z_spec in Hon. simpl. split; [rewrite Hd; lia|].
      exists n. split; [assumption|]. split; [reflexivity|].
      rewrite (parent_of_key n Hn), Hon. exact Ha'.
    + intros [Hd [n [Hn [Hi Ha]]]]. rewrite <- Hi in Ha. simpl in Ha.
      rewrite (parent_of_key n Hn) in Ha.
      destruct (parent_id n) as [p|] eqn:Hp; [|discriminate].
      destruct (ancestor_at_start_node p a k Ha a_node) as [n' [Hn' Hi']].
      exists (n, mk_depth_row p (Z.of_nat k)). split.
      * destruct r as [i d]; simpl in *. subst. f_equal. lia.
      * apply join_In. split; [assumption|]. split.
        -- apply IH. simpl. split; [reflexivity|]. exists n'. auto.
        -- simpl. rewrite Hp. simpl. apply Z.eqb_refl.
Qed.

Lemma depth_calc_round_runs_out :
  depth_calc_round db (Z.to_nat (fold_right Z.max 0 (map id (nodes db))))
    [mk_depth_row a 0] = [].
Proof.
  destruct (depth_calc_round db _ [mk_depth_row a 0]) as [|r rs] eqn:E; [reflexivity|].
  exfalso.
  assert (Hr : In r (depth_calc_round db
                       (Z.to_nat (fold_right Z.max 0 (map id (nodes db))))
                       [mk_depth_row a 0])) by (rewrite E; left; reflexivity).
  apply depth_calc_round_In in Hr as [_ [n [Hn [Hi Ha]]]].
  apply ancestor_at_lower in Ha. pose proof (id_le_max n Hn) as Hmax.
  destruct a_node as [n0 [Hn0 Hi0]]. destruct (parents_lower n0 Hn0) as [Hpos _].
  lia.
Qed.
End WalkingUp.

Lemma depth_calc_step_nil (db : database) : depth_calc_step db [] = [].
Proof.
  unfold depth_calc_step, join. simpl.
  induction (nodes db) as [|n t IH]; simpl; [reflexivity | exact IH].
Qed.

Lemma depth_calc_round_nil (db : database) (k : nat) : depth_calc_round db k [] = [].
Proof. induction k as [|k IH]; simpl; [reflexivity | now rewrite depth_calc_step_nil]. Qed.

(** The recursion stops as soon as a round is empty ... *)
Lemma depth_calc_terminates (db : database) (fuel m : nat) (work : list depth_row) :
  depth_calc_round db m work = [] -> (m < fuel)%nat ->
  exists rows, depth_calc fuel db work = Some rows.
Proof.
  revert m work. induction fuel as [|f IH]; intros m work Hm Hlt; [lia|].
  simpl. destruct work as [|r w]; [eauto|].
  destruct m as [|m]; [discriminate|]. simpl in Hm.
  destruct (IH m _ Hm) as [rows Hrows]; [lia|].
  rewrite Hrows. simpl. eauto.
Qed.

(** ... and returns the rows of all rounds. *)
Lemma depth_calc_rows (db : database) (fuel : nat) (work rows : list depth_row) :
  depth_calc fuel db work = Some rows ->
  forall r, In r rows <-> exists k, In r (depth_calc_round db k work).
Proof.
  revert work rows. induction fuel as [|f IH]; intros work rows H r; [discriminate|].
  simpl in H. destruct work as [|r0 w].
  - injection H as <-. split; [intros [] |].
    intros [k Hk]. now rewrite depth_calc_round_nil in Hk.
  - destruct (depth_calc f db (depth_calc_step db (r0 :: w))) as [rows'|] eqn:E;
      [|discriminate].
    simpl in H. injection H as <-. simpl. rewrite in_app_iff, (IH _ _ E). split.
    + intros [H0|[Hw|[k Hk]]];
        [exists O; left; exact H0 | exists O; right; exact Hw | exists (S k); exact Hk].
    + intros [[|k] Hk]; [destruct Hk; auto | right; right; exists k; exact Hk].
Qed.

(** C7 (as amended).  Let the start code be borne by exactly one node, in
    a store where [id] is a key, parents have smaller ids than their
    children and the closure table is complete.  Then the recursive
    statement terminates, and it and the closure-table statement return
    the same integer: the length of the longest downward path from that
    node. *)
Theorem max_depth_recursive_eq_closure (db : database) (start_code : string)
  (n0 : node) (fuel : nat) :
  NoDup (map id (nodes db)) ->
  parents_first db ->
  closure_complete db ->
  filter (code_is start_code) (nodes db) = [n0] ->
  (enough_rounds db <= fuel)%nat ->
  exists h : nat,
    max_depth_recursive fuel db start_code = Some (Some (Z.of_nat h))
    /\ max_depth_closure db start_code = Some (Z.of_nat h)
    /\ longest_path_below db (id n0) h.
Proof.
  intros Hnd Hpf Hcc Hsel Hfuel.
  assert (Hn0 : In n0 (nodes db)).
  { assert (H : In n0 (filter (code_is start_code) (nodes db)))
      by (rewrite Hsel; left; reflexivity).
    now apply filter_In in H. }
  assert (Hnode : exists n, In n (nodes db) /\ id n = id n0) by eauto.
  assert (Hbase : depth_calc_base db start_code = [mk_depth_row (id n0) 0])
    by (unfold depth_calc_base; now rewrite Hsel).
  destruct (depth_calc_terminates db fuel _ _
              (depth_calc_round_runs_out db Hnd Hpf (id n0) Hnode)) as [rows Hrows];
    [unfold enough_rounds in Hfuel; lia|].
  set (walked := fun z : Z =>
         exists k n, z = Z.of_nat k /\ In n (nodes db)
                     /\ ancestor_at db (id n) k = Some (id n0)).
  assert (HA : forall z, In z (map d_depth rows) <-> walked z).
  { intros z. rewrite in_map_iff. split.
    - intros [r [<- Hr]]. apply (depth_calc_rows _ _ _ _ Hrows) in Hr as [k Hk].
      apply (depth_calc_round_In db Hnd (id n0) Hnode) in Hk as [Hd [n [Hn [Hi Ha]]]].
      exists k, n. rewrite Hi. auto.
    - intros [k [n [-> [Hn Ha]]]]. exists (mk_depth_row (id n) (Z.of_nat k)).
      split; [reflexivity|]. apply (depth_calc_rows _ _ _ _ Hrows). exists k.
      apply (depth_calc_round_In db Hnd (id n0) Hnode). simpl. eauto. }
  assert (HB : forall z,
             In z (map depth
                     (filter (fun np => sql_eq Z.eqb (Some (ancestor_id np))
                                                (id_by_code db start_code))
                             (node_paths db))) <-> walked z).
  { intros z. rewrite (id_by_code_first _ _ _ _ Hsel), in_map_iff. split.
    - intros [[x d y] [<- Hin]]. apply filter_In in Hin as [Hin Hx].
      simpl in Hx. apply Z.eqb_eq in Hx. subst x.
      apply Hcc in Hin as [[n [Hn Hi]] [k [Hy Ha]]]. simpl.
      exists k, n. rewrite Hi. auto.
    - intros [k [n [-> [Hn Ha]]]].
      exists (mk_path (id n0) (id n) (Z.of_nat k)). split; [reflexivity|].
      apply filter_In. split; [|simpl; apply Z.eqb_refl].
      apply Hcc. split; [exists n; auto | exists k; auto]. }
  assert (Hzero : walked 0).
  { exists O, n0. simpl. auto. }
  destruct (sql_max (map d_depth rows)) as [m|] eqn:Emax.
  - pose proof Emax as Hm. apply sql_max_spec in Hm as [Hin Hub].
    apply HA in Hin as [h [n [-> [Hn Ha]]]]. exists h. split; [|split].
    + unfold max_depth_recursive. rewrite Hbase, Hrows. simpl. now rewrite Emax.
    + unfold max_depth_closure. rewrite <- Emax. apply sql_max_ext.
      intros z. rewrite HA, HB. tauto.
    + split; [exists n; auto|]. intros n' k Hn' Ha'.
      assert (Hk : walked (Z.of_nat k)) by (exists k, n'; auto).
      apply HA, Hub in Hk. lia.
  - apply HA in Hzero. destruct (map d_depth rows); [destruct Hzero | discriminate].
Qed.

(** Closure completeness of a small literal store, by enumeration. *)
Ltac pick_row := (left; reflexivity) + (right; pick_row).

Ltac pick_node := eexists; (split; [pick_row | idtac]); reflexivity.

Ltac pick_steps :=
  first [ exists 0%nat; split; reflexivity
        | exists 1%nat; split; reflexivity
        | exists 2%nat; split; reflexivity
        | exists 3%nat; split; reflexivity ].

Ltac closure_rows_walked Hin :=
  vm_compute in Hin;
  repeat match goal with H : _ \/ _ |- _ => destruct H as [H|H] end;
  try contradiction; injection Hin as <- <- <-;
  (split; [pick_node | pick_steps]).

Lemma chain_db_closure_complete : closure_complete chain_db.
Proof.
  intros a d z. split.
  - intros Hin. closure_rows_walked Hin.
  - intros [[n [Hn Hi]] [k [-> Ha]]]. subst d.
    destruct Hn as [<-|[<-|[<-|[]]]];
      destruct k as [|[|[|k]]]; vm_compute in Ha; try discriminate;
      injection Ha as <-; vm_compute; tauto.
Defined.

Lemma twin_db_closure_complete : closure_complete twin_db.
Proof.
  intros a d z. split.
  - intros Hin. closure_rows_walked Hin.
  - intros [[n [Hn Hi]] [k [-> Ha]]]. subst d.
    destruct Hn as [<-|[<-|[<-|[<-|[<-|[]]]]]];
      destruct k as [|[|[|[|k]]]]; vm_compute in Ha; try discriminate;
      injection Ha as <-; vm_compute; tauto.
Qed.

Lemma max_depth_recursive_eq_closure_witness :
  exists h : nat,
    max_depth_recursive 5 chain_db "R" = Some (Some (Z.of_nat h))
    /\ max_depth_closure chain_db "R" = Some (Z.of_nat h)
    /\ longest_path_below chain_db 1 h.
Proof.
  apply (max_depth_recursive_eq_closure chain_db "R" (selectable 1 None 0 "R" 0) 5).
  - repeat constructor; simpl; intuition lia.
  - intros n Hn. destruct Hn as [<-|[<-|[<-|[]]]]; simpl;
      (split; [lia|]); intros p Hp; try discriminate; injection Hp as <-; lia.
  - exact chain_db_closure_complete.
  - reflexivity.
  - vm_compute. lia.
Defined.

(** C7, the claim as stated: in [twin_db] the code X is borne by a leaf
    (id 2) and by a node with one child (id 4); [id] is a key and the
    closure table is complete.  The recursive statement starts from both
    nodes and returns 1, the closure-table statement looks up the first
    and returns 0, and no path leads downward from the leaf. *)
Lemma max_depth_differs_on_shared_code :
  closure_complete twin_db
  /\ NoDup (map id (nodes twin_db))
  /\ map id (filter (code_is "X") (nodes twin_db)) = [2; 4]
  /\ max_depth_recursive (enough_rounds twin_db) twin_db "X" = Some (Some 1)
  /\ max_depth_closure twin_db "X" = Some 0
  /\ longest_path_below twin_db 2 0.
Proof.
  split; [exact twin_db_closure_complete|].
  split; [repeat constructor; simpl; intuition lia|].
  split; [reflexivity|]. split; [vm_compute; reflexivity|].
  split; [vm_compute; reflexivity|]. split.
  - exists (selectable 2 (Some 1) 1 "X" 2). split; [simpl; tauto | reflexivity].
  - intros n k Hn Ha. destruct k as [|k]; [lia|]. exfalso.
    destruct Hn as [<-|[<-|[<-|[<-|[<-|[]]]]]];
      destruct k as [|[|[|k]]]; vm_compute in Ha; discriminate.
Qed.

(* ------------------------------------------------------------------ *)
(** ** Query 1, Query 2, Query 5, Query 6 and Query 7 *)
(* ------------------------------------------------------------------ *)

Lemma text_sorted_by_key {A : Type} (key : A -> option string) (l : list A) :
  StronglySorted (fun a b => text_leb (key a) (key b) = true)
    (order_by (fun a b => text_leb (key a) (key b)) l).
Proof.
  apply order_by_sorted.
  - intros a b. apply text_leb_total.
  - intros a b c. apply text_leb_trans.
Qed.

Lemma key_sorted_by_key {A : Type} (key : A -> Z * option string) (l : list A) :
  StronglySorted (fun a b => key_leb (key a) (key b) = true)
    (order_by (fun a b => key_leb (key a) (key b)) l).
Proof.
  apply order_by_sorted.
  - intros a b. apply key_leb_total.
  - intros a b c. apply key_leb_trans.
Qed.

Lemma is_product_family_spec (n : node) :
  is_product_family n = true <-> parent_id n = None /\ code n <> None.
Proof.
  unfold is_product_family, is_null. rewrite andb_true_iff, negb_true_iff.
  rewrite is_not_null_spec. destruct (parent_id n); simpl; split;
    intros [H1 H2]; split; congruence.
Qed.

(** Query 1 returns exactly the roots that have a code, by position and
    then code; the view [v_product_families] holds the same rows in
    another order. *)
Theorem product_families_roots_with_code (db : database) :
  (forall r, In r (product_families db) <->
             exists n, In n (nodes db) /\ parent_id n = None /\ code n <> None
                       /\ r = family_row_of n)
  /\ StronglySorted
       (fun a b => key_leb (fam_position a, fam_code a) (fam_position b, fam_code b) = true)
       (product_families db)
  /\ Permutation (product_families db) (map snd (v_product_families db)).
Proof.
  split; [|split].
  - intros r. unfold product_families. rewrite in_map_iff. split.
    + intros [n [<- Hn]]. apply order_by_In, filter_In in Hn as [Hn Hf].
      apply is_product_family_spec in Hf. exists n. tauto.
    + intros [n [Hn [Hp [Hc ->]]]]. exists n. split; [reflexivity|].
      apply order_by_In, filter_In. split; [assumption|].
      apply is_product_family_spec. tauto.
  - unfold product_families. apply StronglySorted_map.
    apply (key_sorted_by_key node_order_key).
  - unfold product_families, v_product_families. rewrite map_map. simpl.
    apply Permutation_map.
    eapply perm_trans; [apply order_by_perm|].
    apply Permutation_sym, order_by_perm.
Qed.

(** Query 2 on a code that no node bears returns no row; its rows never
    stand for a pattern container, and come by position and then code. *)
Theorem get_children_edge_cases (db : database) (parent_code : string) :
  (filter (code_is parent_code) (nodes db) = [] -> get_children db parent_code = [])
  /\ (forall r, In r (get_children db parent_code) -> ch_code r <> None)
  /\ StronglySorted
       (fun a b => key_leb (ch_position a, ch_code a) (ch_position b, ch_code b) = true)
       (get_children db parent_code).
Proof.
  split; [|split].
  - intros Hnone. unfold get_children, children_nodes, id_by_code.
    rewrite Hnone. simpl.
    replace (filter _ (nodes db)) with (@nil node); [reflexivity|].
    symmetry. clear Hnone. induction (nodes db) as [|n t IH]; simpl; [reflexivity|].
    destruct (parent_id n); simpl; exact IH.
  - intros r Hr. unfold get_children in Hr. apply in_map_iff in Hr as [n [<- Hn]].
    unfold children_nodes in Hn. apply order_by_In, filter_In in Hn as [_ Hc].
    apply andb_true_iff in Hc as [_ Hc]. now apply is_not_null_spec.
  - unfold get_children, children_nodes. apply StronglySorted_map.
    apply (key_sorted_by_key node_order_key).
Qed.

Lemma get_children_edge_cases_witness : get_children car_db "NOPE" = [].
Proof. apply (proj1 (get_children_edge_cases car_db "NOPE")). reflexivity. Defined.

Lemma limit_1_length {A : Type} (l : list A) : (List.length (limit_1 l) <= 1)%nat.
Proof. destruct l as [|x [|y t]]; unfold limit_1; simpl; lia. Qed.

Lemma limit_1_In {A : Type} (l : list A) (x : A) : In x (limit_1 l) -> In x l.
Proof. destruct l as [|y t]; unfold limit_1; simpl; [tauto|]. intros [<-|[]]. now left. Qed.

Lemma limit_1_nil {A : Type} (l : list A) : limit_1 l = [] <-> l = [].
Proof. destruct l; unfold limit_1; simpl; split; congruence. Qed.

(** Query 6 returns at most one row; the row bears the typecode asked
    for, and there is a row exactly when some node bears it. *)
Theorem find_product_at_most_one (db : database) (typecode : string) :
  (List.length (find_product db typecode) <= 1)%nat
  /\ (forall r, In r (find_product db typecode) ->
        p_full_typecode r = Some typecode
        /\ exists n, In n (nodes db) /\ id n = p_id r
                     /\ full_typecode n = Some typecode)
  /\ (find_product db typecode = [] <->
      forall n, In n (nodes db) -> full_typecode n <> Some typecode).
Proof.
  assert (Hmatch : forall n,
             sql_eq String.eqb (full_typecode n) (Some typecode) = true
             <-> full_typecode n = Some typecode).
  { intros n. destruct (full_typecode n) as [c|]; simpl.
    - rewrite String.eqb_eq. split; congruence.
    - split; discriminate. }
  unfold find_product. split; [|split].
  - rewrite length_map. apply limit_1_length.
  - intros r Hr. apply in_map_iff in Hr as [n [<- Hn]].
    apply limit_1_In, filter_In in Hn as [Hn Hf]. apply Hmatch in Hf.
    split; [exact Hf|]. exists n. auto.
  - split.
    + intros Hnil n Hn Hf. apply map_eq_nil in Hnil.
      apply (proj1 (limit_1_nil _)) in Hnil.
      assert (H : In n (filter (fun n => sql_eq String.eqb (full_typecode n)
                                                 (Some typecode)) (nodes db)))
        by (apply filter_In; split; [assumption | now apply Hmatch]).
      rewrite Hnil in H. destruct H.
    + intros Hnone.
      destruct (filter _ (nodes db)) as [|n t] eqn:E; [reflexivity|].
      exfalso. assert (H : In n (filter (fun n => sql_eq String.eqb (full_typecode n)
                                                          (Some typecode)) (nodes db)))
        by (rewrite E; left; reflexivity).
      apply filter_In in H as [Hn Hf]. apply Hmatch in Hf. exact (Hnone n Hn Hf).
Qed.

(** Query 7 reports on one bearer of the code.  The intermediate flag of
    a row being 0 or 1, as [nodes] is modelled, it never answers
    'unknown'; it answers 'pattern_container' only for a row that has a
    pattern beside its code, which the CHECK constraint admits on a root
    only; [has_children] tells whether some row names the node as
    parent. *)
Theorem check_node_type_classifies (db : database) (check_code : string)
  (r : node_type_row) :
  In r (check_node_type db check_code) ->
  exists n, In n (nodes db) /\ code n = Some check_code
    /\ nt_code r = Some check_code
    /\ nt_node_type r <> "unknown"
    /\ (nt_node_type r = "pattern_container" <-> pattern n <> None)
    /\ (nt_node_type r = "leaf" <->
        pattern n = None /\ full_typecode n <> None /\ is_intermediate_code n = false)
    /\ (nt_node_type r = "intermediate" <->
        pattern n = None /\ full_typecode n <> None /\ is_intermediate_code n = true)
    /\ (nt_node_type r = "variant_step" <-> pattern n = None /\ full_typecode n = None)
    /\ (check_code_xor_pattern n = true -> parent_id n <> None ->
        nt_node_type r <> "pattern_container")
    /\ (nt_has_children r = true <->
        exists m, In m (nodes db) /\ parent_id m = Some (id n)).
Proof.
  unfold check_node_type. rewrite map_map, in_map_iff.
  intros [n [<- Hn]]. apply limit_1_In, filter_In in Hn as [Hn Hc].
  apply code_is_spec in Hc. exists n. split; [assumption|]. split; [assumption|].
  simpl. split; [assumption|].
  unfold node_type, check_code_xor_pattern, is_null. simpl. rewrite Hc. simpl.
  destruct (pattern n) as [pt|], (full_typecode n) as [ft|],
    (is_intermediate_code n), (parent_id n) as [pp|]; simpl;
    (repeat split; try discriminate; try congruence;
     try (intros [? ?]; congruence); try (intros [? [? ?]]; congruence);
     try (intros _; congruence)).
  all: try (intros H; apply Z.ltb_lt in H; unfold child_count in H;
            destruct (filter _ (nodes db)) as [|m ms] eqn:E; [simpl in H; lia|];
            exists m;
            assert (Hm : In m (filter (fun m0 => sql_eq Z.eqb (parent_id m0) (Some (id n)))
                                      (nodes db))) by (rewrite E; left; reflexivity);
            apply filter_In in Hm as [Hm Hp]; apply sql_eq_Z_spec in Hp; auto).
  all: try (intros [m [Hm Hp]]; apply Z.ltb_lt; unfold child_count;
            assert (Hin : In m (filter (fun m0 => sql_eq Z.eqb (parent_id m0) (Some (id n)))
                                       (nodes db)))
              by (apply filter_In; split; [assumption | now apply sql_eq_Z_spec]);
            destruct (filter _ (nodes db)); [destruct Hin | simpl; lia]).
Qed.

Lemma check_node_type_classifies_witness :
  exists n, In n (nodes car_db) /\ code n = Some "TRANS-X"
    /\ nt_code (mk_node_type_row (Some "TRANS-X") "TRANS-X" "variant_step" true)
       = Some "TRANS-X".
Proof.
  destruct (check_node_type_classifies car_db "TRANS-X"
              (mk_node_type_row (Some "TRANS-X") "TRANS-X" "variant_step" true))
    as [n [Hn [Hc [Hr _]]]].
  - left. reflexivity.
  - exists n. auto.
Defined.

Lemma NoDup_key_inj {A : Type} (key : A -> Z) (l : list A) (a b : A) :
  NoDup (map key l) -> In a l -> In b l -> key a = key b -> a = b.
Proof.
  induction l as [|m t IH]; simpl; intros Hnd Ha Hb Hk; [destruct Ha|].
  inversion Hnd as [|? ? Hnotin Hnd']; subst.
  destruct Ha as [->|Ha], Hb as [->|Hb]; auto.
  - exfalso. apply Hnotin. rewrite Hk. now apply in_map.
  - exfalso. apply Hnotin. rewrite <- Hk. now apply in_map.
Qed.

Lemma level_id_leb_total (a b : node * option node) :
  level_id_leb a b = true \/ level_id_leb b a = true.
Proof.
  unfold level_id_leb.
  rewrite !orb_true_iff, !andb_true_iff, !Z.ltb_lt, !Z.eqb_eq, !Z.leb_le. lia.
Qed.

Lemma level_id_leb_trans (a b c : node * option node) :
  level_id_leb a b = true -> level_id_leb b c = true -> level_id_leb a c = true.
Proof.
  unfold level_id_leb.
  rewrite !orb_true_iff, !andb_true_iff, !Z.ltb_lt, !Z.eqb_eq, !Z.leb_le. lia.
Qed.

(** Query 5 lists its rows by level and then id.  With [id] a key, the
    parent columns of a row are those of the node's parent row, and NULL
    for a root or for a node whose parent row is missing. *)
Theorem find_by_code_parent_columns (db : database) (search_code : string) :
  NoDup (map id (nodes db)) ->
  StronglySorted
    (fun a b => f_level a < f_level b \/ (f_level a = f_level b /\ f_id a <= f_id b))
    (find_by_code db search_code)
  /\ forall r, In r (find_by_code db search_code) ->
       exists n, In n (nodes db) /\ f_id r = id n
         /\ match parent_id n with
            | None => f_parent_code r = None /\ f_parent_label r = None
            | Some p =>
                (forall q, In q (nodes db) -> id q = p ->
                           f_parent_code r = code q /\ f_parent_label r = Some (label q))
                /\ ((forall q, In q (nodes db) -> id q <> p) ->
                    f_parent_code r = None /\ f_parent_label r = None)
            end.
Proof.
  intros Hnd. split.
  - unfold find_by_code. apply StronglySorted_map.
    pose proof (order_by_sorted level_id_leb level_id_leb_total level_id_leb_trans
                  (filter (fun np => code_is search_code (fst np))
                     (left_join (fun n p => sql_eq Z.eqb (parent_id n) (Some (id p)))
                        (nodes db) (nodes db)))) as Hs.
    fold (find_by_code_rows db search_code) in Hs.
    induction Hs as [|a s _ IH Hall]; constructor; [exact IH|].
    rewrite Forall_forall in *. intros b Hb. specialize (Hall b Hb).
    destruct a as [na pa], b as [nb pb]. unfold level_id_leb in Hall. simpl in *.
    rewrite orb_true_iff, andb_true_iff, Z.ltb_lt, Z.eqb_eq, Z.leb_le in Hall. exact Hall.
  - intros r Hr. unfold find_by_code in Hr. apply in_map_iff in Hr as [[n op] [<- Hin]].
    unfold find_by_code_rows in Hin. apply order_by_In, filter_In in Hin as [Hin _].
    apply left_join_In in Hin as [Hn Hop]. exists n. split; [assumption|].
    split; [reflexivity|].
    destruct (parent_id n) as [p|] eqn:Hp.
    + split.
      * intros q Hq Hid. destruct op as [q'|].
        -- destruct Hop as [Hq' Hon]. apply sql_eq_Z_spec in Hon.
           injection Hon as Hon. simpl.
           assert (q' = q); [|subst; auto].
           apply (NoDup_key_inj id (nodes db)); auto. congruence.
        -- exfalso.
           assert (H : In q (filter (fun p0 => sql_eq Z.eqb (Some p) (Some (id p0)))
                                    (nodes db))).
           { apply filter_In. split; [assumption|]. simpl. apply Z.eqb_eq. auto. }
           rewrite Hop in H. destruct H.
      * intros Hmiss. destruct op as [q'|]; [|simpl; auto].
        destruct Hop as [Hq' Hon]. apply sql_eq_Z_spec in Hon. injection Hon as Hon.
        exfalso. exact (Hmiss q' Hq' (eq_sym Hon)).
    + destruct op as [q'|]; [|simpl; auto].
      destruct Hop as [_ Hon]. simpl in Hon. discriminate.
Qed.

Lemma find_by_code_parent_columns_witness :
  StronglySorted
    (fun a b => f_level a < f_level b \/ (f_level a = f_level b /\ f_id a <= f_id b))
    (find_by_code twin_db "X").
Proof.
  apply (find_by_code_parent_columns twin_db "X").
  repeat constructor; simpl; intuition lia.
Defined.

(* ------------------------------------------------------------------ *)
(** ** Query 3: unknown codes and cyclic parent links *)
(* ------------------------------------------------------------------ *)

(** For a code that no node bears both statements of Query 3 return
    NULL, the recursive one after its first round. *)
Theorem max_depth_unknown_code (db : database) (start_code : string) (fuel : nat) :
  filter (code_is start_code) (nodes db) = [] ->
  max_depth_recursive (S fuel) db start_code = Some None
  /\ max_depth_closure db start_code = None.
Proof.
  intros Hnone. split.
  - unfold max_depth_recursive, depth_calc_base. rewrite Hnone. reflexivity.
  - unfold max_depth_closure, id_by_code. rewrite Hnone. simpl.
    replace (filter _ (node_paths db)) with (@nil node_path); [reflexivity|].
    symmetry. induction (node_paths db) as [|np t IH]; simpl; [reflexivity | exact IH].
Qed.

Lemma max_depth_unknown_code_witness :
  max_depth_recursive 1 car_db "NOPE" = Some None
  /\ max_depth_closure car_db "NOPE" = None.
Proof. apply (max_depth_unknown_code car_db "NOPE" 0). reflexivity. Defined.

Lemma ancestor_at_add (db : database) (i : Z) (j k : nat) :
  ancestor_at db i (j + k) =
  match ancestor_at db i j with
  | Some m => ancestor_at db m k
  | None => None
  end.
Proof.
  revert i. induction j as [|j IH]; intros i; simpl; [reflexivity|].
  destruct (parent_of db i) as [p|]; [apply IH | reflexivity].
Qed.

Lemma ancestor_at_cycle (db : database) (a : Z) (len q : nat) :
  ancestor_at db a len = Some a -> ancestor_at db a (q * len) = Some a.
Proof.
  intros Hc. induction q as [|q IH]; simpl; [reflexivity|].
  rewrite ancestor_at_add, Hc. exact IH.
Qed.

Lemma depth_calc_runs_out_of_fuel (db : database) (fuel : nat) (work : list depth_row) :
  (forall j, (j < fuel)%nat -> depth_calc_round db j work <> []) ->
  depth_calc fuel db work = None.
Proof.
  revert work. induction fuel as [|f IH]; intros work H; simpl; [reflexivity|].
  destruct work as [|r w]; [exfalso; apply (H O); [lia | reflexivity]|].
  rewrite IH; [reflexivity|].
  intros j Hj. apply (H (S j)). lia.
Qed.

(** On a store whose [parent_id] links run in a cycle through the start
    node, the recursive statement of Query 3 never finishes: every round
    produces a row, whatever number of rounds is allowed. *)
Theorem max_depth_recursive_diverges_on_cycle (db : database) (start_code : string)
  (n0 : node) (len fuel : nat) :
  NoDup (map id (nodes db)) ->
  filter (code_is start_code) (nodes db) = [n0] ->
  ancestor_at db (id n0) (S len) = Some (id n0) ->
  max_depth_recursive fuel db start_code = None.
Proof.
  intros Hnd Hsel Hcycle.
  assert (Hn0 : In n0 (nodes db)).
  { assert (H : In n0 (filter (code_is start_code) (nodes db)))
      by (rewrite Hsel; left; reflexivity).
    now apply filter_In in H. }
  assert (Hnode : exists n, In n (nodes db) /\ id n = id n0) by eauto.
  unfold max_depth_recursive, depth_calc_base. rewrite Hsel. simpl map.
  rewrite depth_calc_runs_out_of_fuel; [reflexivity|].
  intros j _ Hnil.
  pose proof (ancestor_at_cycle db (id n0) (S len) j Hcycle) as Hq.
  replace (j * S len)%nat with (j * len + j)%nat in Hq by lia.
  rewrite ancestor_at_add in Hq.
  destruct (ancestor_at db (id n0) (j * len)) as [m|] eqn:Em; [|discriminate].
  destruct (ancestor_at_start_node db m (id n0) j Hq Hnode) as [nm [Hnm Him]].
  assert (Hin : In (mk_depth_row m (Z.of_nat j))
                   (depth_calc_round db j [mk_depth_row (id n0) 0])).
  { apply (depth_calc_round_In db Hnd (id n0) Hnode). simpl.
    split; [reflexivity|]. exists nm. auto. }
  rewrite Hnil in Hin. destruct Hin.
Qed.

Lemma max_depth_recursive_diverges_on_cycle_witness :
  max_depth_recursive 1000 loop_db "A" = None.
Proof.
  apply (max_depth_recursive_diverges_on_cycle loop_db "A"
           (selectable 1 (Some 2) 1 "A" 0) 1 1000).
  - repeat constructor; simpl; intuition lia.
  - reflexivity.
  - reflexivity.
Defined.

(* ------------------------------------------------------------------ *)
(** ** Query 4: what the selections can and cannot do *)
(* ------------------------------------------------------------------ *)

Lemma available_options_row (db : database) (t : Z) (sels : list selection)
  (r : option_row) :
  In r (available_options db t sels) ->
  exists c, In c (candidates db t)
    /\ r_code r = c_code c /\ r_label r = c_label c /\ r_position r = c_position c
    /\ r_group_name r = c_group_name c /\ r_level r = c_level c
    /\ (r_is_compatible r = true ->
        forward_pass db t sels (c_id c) = true
        /\ backward_pass db t sels (c_id c) = true).
Proof.
  unfold available_options. rewrite in_map_iff.
  intros [[[c fc] bc] [<- Hin]]. apply order_by_In in Hin.
  apply left_join_In in Hin as [Hin Hbc]. apply left_join_In in Hin as [Hc Hfc].
  exists c. simpl. repeat split; try assumption;
    apply andb_true_iff in H as [Hf Hb];
    destruct fc as [x|]; try discriminate; destruct bc as [y|]; try discriminate.
  - destruct Hfc as [Hx Hon]. apply Z.eqb_eq in Hon.
    unfold forward_pass. apply existsb_eqb_In. now rewrite Hon.
  - destruct Hbc as [Hy Hon]. simpl in Hon. apply Z.eqb_eq in Hon.
    unfold backward_pass. apply existsb_eqb_In. now rewrite Hon.
Qed.

(** Selections that match no node (none at all, or codes that do not
    exist at the level they claim) raise no error: the full statement of
    Query 4 answers, and flags every candidate incompatible. *)
Theorem unmatched_selections_flag_nothing (db : database) (target_level : Z)
  (current_selections : list selection) :
  selection_ids db current_selections = [] ->
  forall r, In r (available_options db target_level current_selections) ->
            r_is_compatible r = false.
Proof.
  intros Hnone r Hr. apply available_options_row in Hr as [c [_ [_ [_ [_ [_ [_ H]]]]]]].
  destruct (r_is_compatible r); [|reflexivity].
  destruct (H eq_refl) as [Hf _]. apply forward_pass_spec in Hf as [_ [ls [Hls _]]].
  unfold last_selection in Hls. rewrite Hnone in Hls. destruct Hls.
Qed.

Lemma unmatched_selections_flag_nothing_witness :
  r_is_compatible (mk_option_row (Some "ENGINE-A") "ENGINE-A" 5 None 1 false) = false.
Proof.
  apply (unmatched_selections_flag_nothing car_db 1 [mk_selection "NOPE" 0]).
  - reflexivity.
  - left. reflexivity.
Defined.

(** The selections decide the flags only: which rows Query 4 returns, in
    which order and with which columns, does not depend on them. *)
Theorem selections_only_change_flags (db : database) (target_level : Z)
  (s1 s2 : list selection) :
  NoDup (map id (nodes db)) ->
  map (fun r => (r_code r, r_label r, r_position r, r_group_name r, r_level r))
      (available_options db target_level s1)
  = map (fun r => (r_code r, r_label r, r_position r, r_group_name r, r_level r))
        (available_options db target_level s2).
Proof.
  intros Hnd. rewrite !available_options_closed_form by assumption.
  rewrite !map_map. reflexivity.
Qed.

Lemma selections_only_change_flags_witness :
  map (fun r => (r_code r, r_label r, r_position r, r_group_name r, r_level r))
      (available_options car_db 2 [mk_selection "ENGINE-A" 1])
  = map (fun r => (r_code r, r_label r, r_position r, r_group_name r, r_level r))
        (available_options car_db 2 [mk_selection "RED" 3; mk_selection "CAR" 0]).
Proof. apply (selections_only_change_flags car_db 2 _ _ car_ids_NoDup). Defined.

Lemma levels_respected_spec (db : database) :
  levels_respected db = true ->
  forall np na nd, In np (node_paths db) -> In na (nodes db) -> In nd (nodes db) ->
                   id na = ancestor_id np -> id nd = descendant_id np ->
                   level na <= level nd.
Proof.
  unfold levels_respected. rewrite forallb_forall.
  intros H np na nd Hnp Hna Hnd Ha Hd. specialize (H np Hnp).
  rewrite forallb_forall in H. specialize (H na Hna).
  rewrite forallb_forall in H. specialize (H nd Hnd).
  rewrite Ha, Hd, !Z.eqb_refl in H. simpl in H. now apply Z.leb_le.
Qed.

(** In a store whose closure rows never lead from a node to a node of a
    lower level, Query 4 flags a candidate compatible only when every
    matched selection sits at the target level itself: one matched
    selection below the target level fails the backward check of every
    candidate, and one above it fails the forward check of every
    candidate. *)
Theorem compatible_only_without_other_levels (db : database) (target_level : Z)
  (current_selections : list selection) (r : option_row) :
  levels_respected db = true ->
  In r (available_options db target_level current_selections) ->
  r_is_compatible r = true ->
  forall si, In si (selection_ids db current_selections) -> si_level si = target_level.
Proof.
  intros Hlv Hr Hflag si Hsi.
  apply available_options_row in Hr as [c [Hc [_ [_ [_ [_ [_ H]]]]]]].
  destruct (H Hflag) as [Hf Hb]. clear H.
  apply candidates_In in Hc as [n [Hn [Hl [_ ->]]]]. simpl in Hf, Hb.
  assert (Hnode : forall s, In s (selection_ids db current_selections) ->
                  exists m, In m (nodes db) /\ id m = si_id s /\ level m = si_level s).
  { intros s Hs. apply selection_ids_In in Hs as [cs [m [_ [Hm [_ [Hlm ->]]]]]].
    exists m. simpl. auto. }
  assert (Hge : target_level <= si_level si).
  { destruct (Z.le_gt_cases target_level (si_level si)) as [Hle|Hlt]; [exact Hle|].
    apply backward_pass_spec in Hb as [_ Hb]. specialize (Hb si Hsi Hlt).
    apply path_exists_spec in Hb as [np [Hnp [Ha Hd]]].
    destruct (Hnode si Hsi) as [m [Hm [Him Hlm]]].
    pose proof (levels_respected_spec db Hlv np n m Hnp Hn Hm (eq_sym Ha)
                  (eq_trans Him (eq_sym Hd))). lia. }
  apply forward_pass_spec in Hf as [_ [ls [Hls Hp]]].
  destruct (last_selection_cases db current_selections)
    as [[_ Hnil]|[ls' [Heq [Hin Hmax]]]].
  - rewrite Hnil in Hls. destruct Hls.
  - rewrite Heq in Hls. destruct Hls as [<-|[]].
    apply path_exists_spec in Hp as [np [Hnp [Ha Hd]]].
    destruct (Hnode ls' Hin) as [m [Hm [Him Hlm]]].
    pose proof (levels_respected_spec db Hlv np m n Hnp Hm Hn
                  (eq_trans Him (eq_sym Ha)) (eq_sym Hd)).
    specialize (Hmax si Hsi). lia.
Qed.

Lemma compatible_only_without_other_levels_witness :
  si_level (mk_selection_id 4 2) = 2.
Proof.
  apply (compatible_only_without_other_levels car_db 2 [mk_selection "TRANS-X" 2]
           (mk_option_row (Some "TRANS-X") "TRANS-X" 13 None 2 true)).
  - vm_compute. reflexivity.
  - vm_compute. tauto.
  - reflexivity.
  - left. reflexivity.
Defined.

(* ------------------------------------------------------------------ *)
(** ** Insertion and the insert trigger *)
(* ------------------------------------------------------------------ *)

Lemma existsb_id_spec (ns : list node) (x : Z) :
  existsb (fun n => id n =? x) ns = true <-> exists n, In n ns /\ id n = x.
Proof.
  rewrite existsb_exists. split; intros [n [Hn H]]; exists n; split; auto;
    now apply Z.eqb_eq.
Qed.

Lemma insert_node_inv (new : node) (db db' : database) :
  insert_node new db = Some db' ->
  (forall n, In n (nodes db) -> id n <> id new)
  /\ check_code_xor_pattern new = true
  /\ (forall p, parent_id new = Some p -> exists q, In q (nodes db) /\ id q = p)
  /\ nodes db' = nodes db ++ [new]
  /\ node_paths db' = trg_node_insert new (node_paths db).
Proof.
  unfold insert_node, insert_allowed.
  destruct (existsb (fun n => id n =? id new) (nodes db)) eqn:Efresh; simpl;
    [discriminate|].
  destruct (check_code_xor_pattern new) eqn:Echeck; simpl; [|discriminate].
  destruct (parent_id new) as [p|] eqn:Ep.
  - destruct (existsb (fun n => id n =? p) (nodes db)) eqn:Epar; [|discriminate].
    intros H. injection H as <-. simpl. repeat split; auto.
    + intros n Hn Hid. rewrite <- not_true_iff_false in Efresh. apply Efresh.
      apply existsb_id_spec. eauto.
    + intros p' Hp'. injection Hp' as <-. now apply existsb_id_spec.
  - intros H. injection H as <-. simpl. repeat split; auto.
    + intros n Hn Hid. rewrite <- not_true_iff_false in Efresh. apply Efresh.
      apply existsb_id_spec. eauto.
    + intros p' Hp'. discriminate.
Qed.

Lemma filter_app_singleton_false {A : Type} (f : A -> bool) (l : list A) (x : A) :
  f x = false -> filter f (l ++ [x]) = filter f l.
Proof. intros H. rewrite filter_app. simpl. rewrite H. apply app_nil_r. Qed.

(** The rows added by the trigger for a row with parent [p], [p] being
    another row. *)
Lemma trg_node_insert_rows (new : node) (p : Z) (paths : list node_path) :
  parent_id new = Some p -> p <> id new ->
  trg_node_insert new paths
  = paths ++ mk_path (id new) (id new) 0
       :: map (fun np => mk_path (ancestor_id np) (id new) (depth np + 1))
              (filter (fun np => descendant_id np =? p) paths).
Proof.
  intros Hp Hne. unfold trg_node_insert. rewrite Hp.
  rewrite filter_app_singleton_false by (simpl; apply Z.eqb_neq; congruence).
  rewrite <- app_assoc. reflexivity.
Qed.

Lemma insert_node_rows (new : node) (db db' : database) (a d z : Z) :
  insert_node new db = Some db' ->
  (In (mk_path a d z) (node_paths db') <->
   In (mk_path a d z) (node_paths db)
   \/ (d = id new
       /\ exists p, parent_id new = Some p
                    /\ ((a = id new /\ z = 0)
                        \/ In (mk_path a p (z - 1)) (node_paths db)))).
Proof.
  intros Hins. destruct (insert_node_inv _ _ _ Hins) as [Hfresh [_ [Hpar [_ Hpaths]]]].
  rewrite Hpaths. destruct (parent_id new) as [p|] eqn:Ep.
  - destruct (Hpar p eq_refl) as [q [Hq Hqid]].
    assert (Hne : p <> id new) by (rewrite <- Hqid; now apply Hfresh).
    rewrite (trg_node_insert_rows new p _ Ep Hne), in_app_iff. simpl.
    rewrite in_map_iff. split.
    + intros [H|[H|[np [H Hnp]]]]; [left; exact H | |].
      * injection H as <- <- <-. right. split; [reflexivity|]. exists p. auto.
      * injection H as <- <- <-. apply filter_In in Hnp as [Hnp Hd].
        apply Z.eqb_eq in Hd. right. split; [reflexivity|]. exists p.
        split; [reflexivity|]. right. destruct np as [x y w]; simpl in *. subst.
        now replace (w + 1 - 1) with w by lia.
    + intros [H|[-> [p' [Hp' [[-> ->]|H]]]]]; [left; exact H | right; left; reflexivity|].
      injection Hp' as <-. right. right. exists (mk_path a p (z - 1)). split.
      * simpl. f_equal. lia.
      * apply filter_In. split; [exact H | simpl; apply Z.eqb_refl].
  - unfold trg_node_insert. rewrite Ep. split; [auto|].
    intros [H|[_ [p [Hp _]]]]; [exact H | discriminate].
Qed.

(** A successful INSERT leaves the closure rows already stored in place
    and adds, for a row with a parent, its reflexive row at depth 0 and
    one row per closure row that ends at the parent, one step deeper;
    for a root it adds nothing. *)
Theorem insert_node_closure_rows (new : node) (db db' : database) (a d z : Z) :
  insert_node new db = Some db' ->
  (In (mk_path a d z) (node_paths db') <->
   In (mk_path a d z) (node_paths db)
   \/ (d = id new
       /\ exists p, parent_id new = Some p
                    /\ ((a = id new /\ z = 0)
                        \/ In (mk_path a p (z - 1)) (node_paths db)))).
Proof. apply insert_node_rows. Qed.

Lemma insert_node_closure_rows_witness :
  In (mk_path 1 11 4) (node_paths (mk_db (nodes car_db ++ [selectable 11 (Some 7) 4 "MATT" 30])
     (trg_node_insert (selectable 11 (Some 7) 4 "MATT" 30) (node_paths car_db)))).
Proof.
  apply (insert_node_closure_rows (selectable 11 (Some 7) 4 "MATT" 30) car_db).
  - reflexivity.
  - right. split; [reflexivity|]. exists 7. split; [reflexivity|]. right.
    vm_compute. tauto.
Defined.

(* ------------------------------------------------------------------ *)
(** ** Deletion, the delete trigger and the cascade *)
(* ------------------------------------------------------------------ *)

Lemma delete_rows_step (fuel : nat) (i : Z) (rest : list Z) (db : database) :
  delete_rows (S fuel) (i :: rest) db =
  if existsb (fun n => id n =? i) (nodes db)
  then delete_rows fuel
         (rest ++ map id (filter (fun n => sql_eq Z.eqb (parent_id n) (Some i)) (nodes db)))
         (remove_row i db)
  else delete_rows fuel rest db.
Proof. reflexivity. Qed.

(** Whatever is kept by every removal of a stored row is kept by
    [delete_rows]. *)
Lemma delete_rows_keeps (P : database -> Prop) :
  (forall db i, P db -> stored db i -> P (remove_row i db)) ->
  forall fuel work db, P db -> P (delete_rows fuel work db).
Proof.
  intros Hstep fuel. induction fuel as [|f IH]; intros work db HP; [exact HP|].
  destruct work as [|i rest]; [exact HP|].
  rewrite delete_rows_step.
  destruct (existsb (fun n => id n =? i) (nodes db)) eqn:E.
  - apply IH, Hstep; [exact HP|]. now apply existsb_id_spec.
  - apply IH, HP.
Qed.

Lemma remove_row_nodes (i : Z) (db : database) (n : node) :
  In n (nodes (remove_row i db)) <-> In n (nodes db) /\ id n <> i.
Proof.
  unfold remove_row. simpl. rewrite filter_In, negb_true_iff, Z.eqb_neq. tauto.
Qed.

Lemma remove_row_paths (i : Z) (db : database) (np : node_path) :
  In np (node_paths (remove_row i db)) <->
  In np (node_paths db) /\ ancestor_id np <> i /\ descendant_id np <> i.
Proof.
  unfold remove_row, trg_node_delete. simpl.
  rewrite filter_In, negb_true_iff, orb_false_iff, !Z.eqb_neq. tauto.
Qed.

Lemma remove_row_stored (i : Z) (db : database) (x : Z) :
  stored (remove_row i db) x <-> stored db x /\ x <> i.
Proof.
  unfold stored. split.
  - intros [n [Hn Hid]]. apply remove_row_nodes in Hn as [Hn Hne].
    split; [eauto | congruence].
  - intros [[n [Hn Hid]] Hne]. exists n. split; [|assumption].
    apply remove_row_nodes. split; [assumption | congruence].
Qed.

Lemma delete_node_facts (db : database) (i : Z) :
  (stored db i ->
   ~ stored (delete_node i db) i
   /\ forall np, In np (node_paths (delete_node i db)) ->
                 ancestor_id np <> i /\ descendant_id np <> i)
  /\ (forall n, In n (nodes (delete_node i db)) -> In n (nodes db))
  /\ (forall np, In np (node_paths (delete_node i db)) -> In np (node_paths db))
  /\ (~ stored db i -> delete_node i db = db).
Proof.
  unfold delete_node. split; [|split; [|split]].
  - intros Hst. rewrite delete_rows_step.
    rewrite (proj2 (existsb_id_spec (nodes db) i) Hst).
    apply (delete_rows_keeps
             (fun cur => ~ stored cur i
                         /\ forall np, In np (node_paths cur) ->
                                       ancestor_id np <> i /\ descendant_id np <> i)).
    + intros cur j [Hns Hnp] _. split.
      * intros H. apply remove_row_stored in H. tauto.
      * intros np H. apply remove_row_paths in H. apply Hnp. tauto.
    + split.
      * intros H. apply remove_row_stored in H. tauto.
      * intros np H. apply remove_row_paths in H. tauto.
  - apply (delete_rows_keeps (fun cur => forall n, In n (nodes cur) -> In n (nodes db))).
    + intros cur j H _ n Hn. apply remove_row_nodes in Hn. apply H. tauto.
    + auto.
  - apply (delete_rows_keeps
             (fun cur => forall np, In np (node_paths cur) -> In np (node_paths db))).
    + intros cur j H _ np Hnp. apply remove_row_paths in Hnp. apply H. tauto.
    + auto.
  - intros Hns. rewrite delete_rows_step.
    destruct (existsb (fun n => id n =? i) (nodes db)) eqn:E.
    + exfalso. apply Hns. now apply existsb_id_spec.
    + destruct (List.length (nodes db)); reflexivity.
Qed.

(** DELETE removes the row and, through the trigger, every closure row
    that names it; it adds nothing, and where no row has the id it
    changes nothing. *)
Theorem delete_node_removes_closure_rows (db : database) (i : Z) :
  (stored db i ->
   ~ stored (delete_node i db) i
   /\ forall np, In np (node_paths (delete_node i db)) ->
                 ancestor_id np <> i /\ descendant_id np <> i)
  /\ (forall n, In n (nodes (delete_node i db)) -> In n (nodes db))
  /\ (forall np, In np (node_paths (delete_node i db)) -> In np (node_paths db))
  /\ (~ stored db i -> delete_node i db = db).
Proof. apply delete_node_facts. Qed.

Lemma delete_node_removes_closure_rows_witness :
  ~ stored (delete_node 2 car_db) 2.
Proof.
  apply (proj1 (delete_node_removes_closure_rows car_db 2)).
  exists (selectable 2 (Some 1) 1 "ENGINE-A" 5). split; [simpl; tauto | reflexivity].
Defined.

Lemma has_stored_parent_spec (db : database) (n : node) :
  has_stored_parent db n = true <-> exists p, parent_id n = Some p /\ stored db p.
Proof.
  unfold has_stored_parent, stored. destruct (parent_id n) as [p|].
  - rewrite existsb_id_spec. split.
    + intros H. exists p. auto.
    + intros [p' [Hp H]]. injection Hp as <-. exact H.
  - split; [discriminate | intros [p [H _]]; discriminate].
Qed.

(** Removing a stored row takes its children out of the rows that still
    have a stored parent. *)
Lemma remove_row_potential (db : database) (i : Z) :
  stored db i ->
  (List.length (filter (has_stored_parent (remove_row i db)) (nodes (remove_row i db)))
   + List.length (filter (fun n => sql_eq Z.eqb (parent_id n) (Some i)) (nodes db))
   <= List.length (filter (has_stored_parent db) (nodes db)))%nat.
Proof.
  intros Hst.
  assert (H1 : forall n, has_stored_parent (remove_row i db) n = true ->
                         has_stored_parent db n = true
                         /\ sql_eq Z.eqb (parent_id n) (Some i) = false).
  { intros n H. apply has_stored_parent_spec in H as [p [Hp Hs]].
    apply remove_row_stored in Hs as [Hs Hne]. split.
    - apply has_stored_parent_spec. eauto.
    - apply not_true_iff_false. rewrite sql_eq_Z_spec. congruence. }
  assert (H2 : forall n, sql_eq Z.eqb (parent_id n) (Some i) = true ->
                         has_stored_parent db n = true).
  { intros n H. apply sql_eq_Z_spec in H. apply has_stored_parent_spec. eauto. }
  unfold remove_row at 2. simpl nodes.
  generalize (has_stored_parent (remove_row i db)) H1.
  generalize (has_stored_parent db) H2. clear.
  intros f H2 f' H1. induction (nodes db) as [|n t IH]; simpl; [lia|].
  specialize (H1 n). specialize (H2 n).
  destruct (negb (id n =? i)); simpl;
    destruct (f' n) eqn:Ef'; destruct (sql_eq Z.eqb (parent_id n) (Some i)) eqn:Eg;
    destruct (f n) eqn:Ef; simpl; try lia;
    try (destruct (H1 eq_refl); congruence); try (specialize (H2 eq_refl); congruence).
Qed.

Lemma delete_rows_no_orphans (fuel : nat) :
  forall work db,
    (List.length work + List.length (filter (has_stored_parent db) (nodes db)) <= fuel)%nat ->
    (forall n p, In n (nodes db) -> parent_id n = Some p ->
                 stored db p \/ In (id n) work) ->
    no_orphans (delete_rows fuel work db).
Proof.
  induction fuel as [|f IH]; intros work db Hfuel Hinv.
  - destruct work as [|i rest]; [|simpl in Hfuel; lia].
    simpl. intros n p Hn Hp. destruct (Hinv n p Hn Hp) as [H|[]]. exact H.
  - destruct work as [|i rest].
    + simpl. intros n p Hn Hp. destruct (Hinv n p Hn Hp) as [H|[]]. exact H.
    + rewrite delete_rows_step.
      destruct (existsb (fun n => id n =? i) (nodes db)) eqn:E.
      * apply existsb_id_spec in E. apply IH.
        -- pose proof (remove_row_potential db i E) as Hpot.
           rewrite length_app, length_map. simpl in Hfuel. lia.
        -- intros n p Hn Hp. apply remove_row_nodes in Hn as [Hn Hne].
           destruct (Hinv n p Hn Hp) as [Hs|[Hi|Hr]].
           ++ destruct (Z.eq_dec p i) as [->|Hpi].
              ** right. apply in_or_app. right. apply in_map. apply filter_In.
                 split; [assumption | now apply sql_eq_Z_spec].
              ** left. apply remove_row_stored. auto.
           ++ congruence.
           ++ right. apply in_or_app. now left.
      * apply IH.
        -- simpl in Hfuel. lia.
        -- intros n p Hn Hp. destruct (Hinv n p Hn Hp) as [Hs|[Hi|Hr]]; auto.
           exfalso. rewrite <- not_true_iff_false in E. apply E.
           apply existsb_id_spec. exists n. auto.
Qed.

Lemma filter_length_le {A : Type} (f : A -> bool) (l : list A) :
  (List.length (filter f l) <= List.length l)%nat.
Proof. induction l as [|a t IH]; simpl; [lia|]. destruct (f a); simpl; lia. Qed.

Lemma orphaned_nodes_spec (db : database) : orphaned_nodes db = [] <-> no_orphans db.
Proof.
  unfold orphaned_nodes, no_orphans. split.
  - intros H n p Hn Hp. apply map_eq_nil in H.
    destruct (existsb (Z.eqb p) (map id (nodes db))) eqn:E.
    + apply existsb_eqb_In, in_map_iff in E as [q [Hq Hin]]. eauto.
    + exfalso. assert (Hin : In n (filter (is_orphan db) (nodes db))).
      { apply filter_In. split; [assumption|]. unfold is_orphan. now rewrite Hp, E. }
      rewrite H in Hin. destruct Hin.
  - intros H. destruct (filter (is_orphan db) (nodes db)) as [|n t] eqn:E; [reflexivity|].
    exfalso. assert (Hin : In n (filter (is_orphan db) (nodes db)))
      by (rewrite E; left; reflexivity).
    apply filter_In in Hin as [Hn Ho]. unfold is_orphan in Ho.
    destruct (parent_id n) as [p|] eqn:Hp; [|discriminate].
    destruct (H n p Hn Hp) as [q [Hq Hid]]. apply negb_true_iff in Ho.
    rewrite <- not_true_iff_false in Ho. apply Ho.
    apply existsb_eqb_In, in_map_iff. eauto.
Qed.

Lemma delete_node_no_orphans (db : database) (i : Z) :
  no_orphans db -> no_orphans (delete_node i db).
Proof.
  intros Hno. unfold delete_node. apply delete_rows_no_orphans.
  - pose proof (filter_length_le (has_stored_parent db) (nodes db)). simpl. lia.
  - intros n p Hn Hp. left. exact (Hno n p Hn Hp).
Qed.

(** ON DELETE CASCADE runs to the end: when the helper query "Find
    Orphaned Nodes" finds nothing before a DELETE, it finds nothing
    after it. *)
Theorem delete_node_leaves_no_orphans (db : database) (i : Z) :
  orphaned_nodes db = [] -> orphaned_nodes (delete_node i db) = [].
Proof. rewrite !orphaned_nodes_spec. apply delete_node_no_orphans. Qed.

Lemma delete_node_leaves_no_orphans_witness :
  orphaned_nodes (delete_node 2 car_db) = [].
Proof. apply (delete_node_leaves_no_orphans car_db 2). reflexivity. Defined.

Lemma ancestor_at_agree (db1 db2 : database) (S : Z -> Prop) :
  (forall x, S x -> parent_of db1 x = parent_of db2 x) ->
  (forall x p, S x -> parent_of db1 x = Some p -> S p) ->
  forall k d, S d -> ancestor_at db1 d k = ancestor_at db2 d k.
Proof.
  intros Hsame Hclosed k. induction k as [|k IH]; intros d Hd; simpl; [reflexivity|].
  rewrite <- (Hsame d Hd). destruct (parent_of db1 d) as [p|] eqn:E; [|reflexivity].
  apply IH. exact (Hclosed d p Hd E).
Qed.

Lemma ancestor_at_closed (db : database) (S : Z -> Prop) :
  (forall x p, S x -> parent_of db x = Some p -> S p) ->
  forall k d a, S d -> ancestor_at db d k = Some a -> S a.
Proof.
  intros Hclosed k. induction k as [|k IH]; intros d a Hd; simpl.
  - intros H. injection H as <-. exact Hd.
  - destruct (parent_of db d) as [p|] eqn:E; [|discriminate].
    apply IH. exact (Hclosed d p Hd E).
Qed.

Lemma no_orphans_closed (db : database) :
  no_orphans db -> forall x p, stored db x -> parent_of db x = Some p -> stored db p.
Proof.
  intros Hno x p _ Hp. apply parent_of_node in Hp as [n [Hn [_ Hpar]]].
  exact (Hno n p Hn Hpar).
Qed.

(** Two stores with unique ids, one holding a part of the rows of the
    other, agree on the parent of every row of the smaller one. *)
Lemma parent_of_sub (small big : database) :
  NoDup (map id (nodes small)) -> NoDup (map id (nodes big)) ->
  (forall n, In n (nodes small) -> In n (nodes big)) ->
  forall x, stored small x -> parent_of small x = parent_of big x.
Proof.
  intros Hs Hb Hsub x [n [Hn <-]].
  now rewrite (parent_of_key small Hs n Hn), (parent_of_key big Hb n (Hsub n Hn)).
Qed.

Lemma delete_rows_ids_unique (fuel : nat) (work : list Z) (db : database) :
  NoDup (map id (nodes db)) -> NoDup (map id (nodes (delete_rows fuel work db))).
Proof.
  apply (delete_rows_keeps (fun cur => NoDup (map id (nodes cur)))).
  intros cur j H _. unfold remove_row. simpl. now apply NoDup_map_filter.
Qed.

Lemma delete_rows_keeps_outside (db : database) (i : Z) (n : node) :
  NoDup (map id (nodes db)) ->
  (forall k, ancestor_at db (id n) k <> Some i) ->
  forall fuel work cur,
    (forall x, In x work -> exists k, ancestor_at db x k = Some i) ->
    (forall m, In m (nodes cur) -> In m (nodes db)) ->
    In n (nodes cur) ->
    In n (nodes (delete_rows fuel work cur)).
Proof.
  intros Hnd Hout fuel. induction fuel as [|f IH]; intros work cur Hwork Hsub Hn;
    [exact Hn|].
  destruct work as [|j rest]; [exact Hn|].
  rewrite delete_rows_step.
  destruct (existsb (fun m => id m =? j) (nodes cur)) eqn:E.
  - apply IH.
    + intros x Hx. apply in_app_or in Hx as [Hx|Hx]; [apply Hwork; now right|].
      apply in_map_iff in Hx as [m [<- Hm]]. apply filter_In in Hm as [Hm Hp].
      apply sql_eq_Z_spec in Hp. destruct (Hwork j (or_introl eq_refl)) as [k Hk].
      exists (S k). simpl. now rewrite (parent_of_key db Hnd m (Hsub m Hm)), Hp.
    + intros m Hm. apply remove_row_nodes in Hm. apply Hsub. tauto.
    + apply remove_row_nodes. split; [assumption|]. intros Heq.
      destruct (Hwork j (or_introl eq_refl)) as [k Hk]. rewrite <- Heq in Hk.
      exact (Hout k Hk).
  - apply IH; auto. intros x Hx. apply Hwork. now right.
Qed.

(** In a store with unique ids and no orphans, DELETE removes exactly the
    subtree of the row: the rows left are those from which walking
    [parent_id] never reaches it. *)
Theorem delete_node_removes_subtree (db : database) (i : Z) (n : node) :
  NoDup (map id (nodes db)) ->
  orphaned_nodes db = [] ->
  (In n (nodes (delete_node i db)) <->
   In n (nodes db) /\ forall k, ancestor_at db (id n) k <> Some i).
Proof.
  intros Hnd Hno.
  apply orphaned_nodes_spec in Hno.
  destruct (delete_node_facts db i) as [Hgone [Hsub [_ Hsame]]].
  split.
  - intros Hn. split; [now apply Hsub|]. intros k Hk.
    pose proof (delete_node_no_orphans db i Hno) as Hno'.
    assert (Hnd' : NoDup (map id (nodes (delete_node i db))))
      by (now apply delete_rows_ids_unique).
    assert (Hst : stored (delete_node i db) (id n)) by (exists n; auto).
    rewrite <- (ancestor_at_agree (delete_node i db) db (stored (delete_node i db))
                  (parent_of_sub _ _ Hnd' Hnd Hsub) (no_orphans_closed _ Hno') k _ Hst)
      in Hk.
    pose proof (ancestor_at_closed _ _ (no_orphans_closed _ Hno') k _ _ Hst Hk) as Hi.
    assert (Hdb : stored db i).
    { destruct Hi as [m [Hm Hid]]. exists m. auto. }
    exact (proj1 (Hgone Hdb) Hi).
  - intros [Hn Hout]. unfold delete_node.
    apply (delete_rows_keeps_outside db i n Hnd Hout); auto.
    intros x [<-|[]]. exists O. reflexivity.
Qed.

Lemma delete_node_removes_subtree_witness :
  In (selectable 9 (Some 6) 3 "BLACK" 22) (nodes (delete_node 2 car_db)).
Proof.
  apply (delete_node_removes_subtree car_db 2 (selectable 9 (Some 6) 3 "BLACK" 22)
           car_ids_NoDup eq_refl).
  split; [simpl; tauto|].
  intros k. destruct k as [|[|[|[|k]]]]; vm_compute; discriminate.
Defined.

(* ------------------------------------------------------------------ *)
(** ** What every reachable store satisfies *)
(* ------------------------------------------------------------------ *)

Lemma insert_keeps_ids (new : node) (db db' : database) :
  NoDup (map id (nodes db)) -> insert_node new db = Some db' ->
  NoDup (map id (nodes db')).
Proof.
  intros Hnd Hins. destruct (insert_node_inv _ _ _ Hins) as [Hfresh [_ [_ [Hn _]]]].
  rewrite Hn, map_app. apply NoDup_app; [assumption | repeat constructor; auto|].
  intros x Hx [<-|[]]. apply in_map_iff in Hx as [n [Hid Hin]].
  exact (Hfresh n Hin Hid).
Qed.

Lemma insert_stored (new : node) (db db' : database) (x : Z) :
  insert_node new db = Some db' ->
  (stored db' x <-> stored db x \/ x = id new).
Proof.
  intros Hins. destruct (insert_node_inv _ _ _ Hins) as [_ [_ [_ [Hn _]]]].
  unfold stored. rewrite Hn. split.
  - intros [n [Hin Hid]]. apply in_app_or in Hin as [Hin|[<-|[]]]; eauto.
  - intros [[n [Hin Hid]]| ->].
    + exists n. split; [apply in_or_app; now left | assumption].
    + exists new. split; [apply in_or_app; right; now left | reflexivity].
Qed.

Lemma insert_keeps_no_orphans (new : node) (db db' : database) :
  no_orphans db -> insert_node new db = Some db' -> no_orphans db'.
Proof.
  intros Hno Hins. destruct (insert_node_inv _ _ _ Hins) as [_ [_ [Hpar [Hn _]]]].
  intros n p Hin Hp. apply (insert_stored new db db' p Hins).
  rewrite Hn in Hin. apply in_app_or in Hin as [Hin|[<-|[]]].
  - left. exact (Hno n p Hin Hp).
  - left. exact (Hpar p Hp).
Qed.

Lemma insert_keeps_closure (new : node) (db db' : database) :
  NoDup (map id (nodes db)) -> no_orphans db -> closure_of_non_roots db ->
  insert_node new db = Some db' ->
  closure_of_non_roots db'.
Proof.
  intros Hnd Hno Hcl Hins.
  pose proof (insert_keeps_ids _ _ _ Hnd Hins) as Hnd'.
  destruct (insert_node_inv _ _ _ Hins) as [Hfresh [_ [Hpar [Hn _]]]].
  assert (Hsub : forall n, In n (nodes db) -> In n (nodes db'))
    by (intros n H; rewrite Hn; apply in_or_app; now left).
  assert (Hnew : In new (nodes db'))
    by (rewrite Hn; apply in_or_app; right; now left).
  assert (Hagree : forall k d, stored db d -> ancestor_at db d k = ancestor_at db' d k).
  { apply ancestor_at_agree.
    - apply parent_of_sub; assumption.
    - apply no_orphans_closed; assumption. }
  assert (Hup : forall a, stored_non_root db a -> stored_non_root db' a).
  { intros a [n [Hin H]]. exists n. auto. }
  assert (Hdown : forall a, stored db a -> stored_non_root db' a -> stored_non_root db a).
  { intros a [n0 [Hin0 Hid0]] [n [Hin [Hid Hp]]]. exists n0.
    assert (n0 = n); [|subst; auto].
    apply (NoDup_key_inj id (nodes db')); auto. congruence. }
  assert (Hpnew : parent_of db' (id new) = parent_id new)
    by (now apply parent_of_key).
  intros a d z. rewrite (insert_node_rows new db db' a d z Hins). split.
  - intros [Hin|[-> [p [Hp [[-> ->]|Hin]]]]].
    + apply Hcl in Hin as [Hd [Ha [k [Hz Hk]]]]. split; [|split].
      * apply (insert_stored new db db' d Hins). now left.
      * now apply Hup.
      * exists k. split; [assumption|]. now rewrite <- Hagree.
    + split; [|split].
      * apply (insert_stored new db db' _ Hins). now right.
      * exists new. split; [assumption|]. split; [reflexivity | congruence].
      * exists O. auto.
    + apply Hcl in Hin as [Hd [Ha [k [Hz Hk]]]]. split; [|split].
      * apply (insert_stored new db db' _ Hins). now right.
      * now apply Hup.
      * exists (S k). split; [lia|]. simpl. rewrite Hpnew, Hp.
        now rewrite <- Hagree.
  - intros [Hd [Ha [k [Hz Hk]]]].
    destruct (Z.eq_dec d (id new)) as [->|Hne].
    + right. split; [reflexivity|]. destruct k as [|k].
      * simpl in Hk. injection Hk as <-.
        destruct Ha as [n [Hin [Hid Hp]]].
        assert (n = new) by (apply (NoDup_key_inj id (nodes db')); auto). subst n.
        destruct (parent_id new) as [p|]; [|congruence].
        exists p. split; [reflexivity|]. left. auto.
      * simpl in Hk. rewrite Hpnew in Hk.
        destruct (parent_id new) as [p|] eqn:Hp; [|discriminate].
        exists p. split; [reflexivity|]. right.
        pose proof (Hpar p eq_refl) as Hps. rewrite <- Hagree in Hk by assumption.
        apply Hcl. split; [assumption|]. split.
        -- apply Hdown; [|assumption].
           exact (ancestor_at_closed db (stored db) (no_orphans_closed db Hno)
                    k p a Hps Hk).
        -- exists k. split; [lia | assumption].
    + left. apply (insert_stored new db db' d Hins) in Hd as [Hd|Hd]; [|contradiction].
      rewrite <- Hagree in Hk by assumption.
      apply Hcl. split; [assumption|]. split.
      * apply Hdown; [|assumption].
        exact (ancestor_at_closed db (stored db) (no_orphans_closed db Hno) k d a Hd Hk).
      * exists k. auto.
Qed.

Lemma closure_rows_stored (db : database) :
  closure_of_non_roots db ->
  forall np, In np (node_paths db) ->
             stored db (ancestor_id np) /\ stored db (descendant_id np).
Proof.
  intros Hcl [a d z] Hin. apply Hcl in Hin as [Hd [[n [Hn [Hid _]]] _]].
  simpl. split; [exists n; auto | exact Hd].
Qed.

(** After a cascade, the closure rows left are those whose two ends are
    still stored. *)
Lemma delete_rows_paths_exact (fuel : nat) (work : list Z) (db : database) :
  (forall np, In np (node_paths db) ->
              stored db (ancestor_id np) /\ stored db (descendant_id np)) ->
  forall np,
    In np (node_paths (delete_rows fuel work db)) <->
    In np (node_paths db)
    /\ stored (delete_rows fuel work db) (ancestor_id np)
    /\ stored (delete_rows fuel work db) (descendant_id np).
Proof.
  intros Hst.
  apply (delete_rows_keeps
           (fun cur => forall np,
                In np (node_paths cur) <->
                In np (node_paths db)
                /\ stored cur (ancestor_id np) /\ stored cur (descendant_id np))).
  - intros cur j H _ np. rewrite remove_row_paths, H, !remove_row_stored. tauto.
  - intros np. split; [|tauto]. intros H. destruct (Hst np H). tauto.
Qed.

Lemma delete_keeps_closure (db : database) (i : Z) :
  NoDup (map id (nodes db)) -> no_orphans db -> closure_of_non_roots db ->
  closure_of_non_roots (delete_node i db).
Proof.
  intros Hnd Hno Hcl.
  pose proof (delete_node_no_orphans db i Hno) as Hno'.
  assert (Hnd' : NoDup (map id (nodes (delete_node i db))))
    by (now apply delete_rows_ids_unique).
  destruct (delete_node_facts db i) as [_ [Hsub _]].
  assert (Hagree : forall k d, stored (delete_node i db) d ->
                     ancestor_at (delete_node i db) d k = ancestor_at db d k).
  { apply ancestor_at_agree.
    - apply parent_of_sub; assumption.
    - apply no_orphans_closed; assumption. }
  assert (Hst : forall x, stored (delete_node i db) x -> stored db x).
  { intros x [n [Hn Hid]]. exists n. auto. }
  intros a d z.
  unfold delete_node at 1.
  rewrite (delete_rows_paths_exact _ _ db (closure_rows_stored db Hcl)).
  fold (delete_node i db). simpl. rewrite (Hcl a d z). split.
  - intros [[_ [[n [Hn [Hid Hp]]] [k [Hz Hk]]]] [[n' [Hn' Hid']] Hd']].
    split; [assumption|]. split.
    + exists n'. split; [assumption|]. split; [assumption|].
      assert (n' = n); [|subst; auto].
      apply (NoDup_key_inj id (nodes db)); auto. congruence.
    + exists k. split; [assumption|]. now rewrite Hagree.
  - intros [Hd [[n [Hn [Hid Hp]]] [k [Hz Hk]]]].
    rewrite Hagree in Hk by assumption. split; [|split; [exists n; auto | assumption]].
    split; [now apply Hst|]. split; [exists n; auto|]. exists k. auto.
Qed.

Lemma NoDup_map_filter_any {A B : Type} (key : A -> B) (P : A -> bool) (l : list A) :
  NoDup (map key l) -> NoDup (map key (filter P l)).
Proof.
  induction l as [|a t IH]; simpl; intros H; [constructor|].
  inversion H as [|? ? Hnotin Hnd]; subst.
  destruct (P a); simpl; [|auto].
  constructor; [|auto]. intros Hin. apply Hnotin.
  apply in_map_iff in Hin as [b [Hk Hb]]. apply filter_In in Hb as [Hb _].
  rewrite <- Hk. now apply in_map.
Qed.

Lemma NoDup_map_rekey {A B C : Type} (key : A -> B) (key' : A -> C) (l : list A) :
  (forall x y, In x l -> In y l -> key' x = key' y -> key x = key y) ->
  NoDup (map key l) -> NoDup (map key' l).
Proof.
  induction l as [|a t IH]; simpl; intros Hinj H; [constructor|].
  inversion H as [|? ? Hnotin Hnd]; subst. constructor.
  - intros Hin. apply Hnotin. apply in_map_iff in Hin as [b [Hk Hb]].
    apply in_map_iff. exists b. split; [|assumption]. apply Hinj; auto.
  - apply IH; auto.
Qed.

Lemma insert_keeps_path_key (new : node) (db db' : database) :
  (forall np, In np (node_paths db) ->
              stored db (ancestor_id np) /\ stored db (descendant_id np)) ->
  NoDup (map path_key (node_paths db)) ->
  insert_node new db = Some db' ->
  NoDup (map path_key (node_paths db')).
Proof.
  intros Hst Hkey Hins.
  destruct (insert_node_inv _ _ _ Hins) as [Hfresh [_ [Hpar [_ Hpaths]]]].
  assert (Hnot : forall x, stored db x -> x <> id new).
  { intros x [n [Hn <-]]. now apply Hfresh. }
  rewrite Hpaths. destruct (parent_id new) as [p|] eqn:Ep.
  - assert (Hne : p <> id new) by (apply Hnot, Hpar; reflexivity).
    rewrite (trg_node_insert_rows new p _ Ep Hne), map_app. simpl.
    rewrite map_map. apply NoDup_app; [assumption| |].
    + constructor.
      * intros Hin. apply in_map_iff in Hin as [np [Hk Hnp]].
        apply filter_In in Hnp as [Hnp _]. unfold path_key in Hk. simpl in Hk.
        injection Hk as Hk. apply (Hnot (ancestor_id np)); [apply Hst, Hnp | assumption].
      * apply (NoDup_map_rekey path_key).
        -- intros x y Hx Hy Hk. apply filter_In in Hx as [_ Hx], Hy as [_ Hy].
           apply Z.eqb_eq in Hx, Hy. unfold path_key in *. simpl in Hk.
           injection Hk as Hk. congruence.
        -- now apply NoDup_map_filter_any.
    + intros k Hk Hk'. apply in_map_iff in Hk as [np [<- Hnp]].
      assert (Hd : descendant_id np = id new).
      { destruct Hk' as [Hk'|Hk'].
        - unfold path_key in Hk'. now injection Hk'.
        - apply in_map_iff in Hk' as [np' [Hk' _]]. unfold path_key in Hk'.
          simpl in Hk'. now injection Hk'. }
      apply (Hnot (descendant_id np)); [apply Hst, Hnp | assumption].
  - unfold trg_node_insert. now rewrite Ep.
Qed.

(** The facts that hold of every store reachable from the empty schema. *)
Lemma reachable_invariants (db : database) :
  reachable db ->
  NoDup (map id (nodes db))
  /\ (forall n, In n (nodes db) -> check_code_xor_pattern n = true)
  /\ no_orphans db
  /\ closure_of_non_roots db
  /\ NoDup (map path_key (node_paths db)).
Proof.
  induction 1 as [|db new db' Hr [Hnd [Hck [Hno [Hcl Hkey]]]] Hins
                  |db i Hr [Hnd [Hck [Hno [Hcl Hkey]]]]].
  - split; [constructor|]. split; [intros n []|]. split; [intros n p []|].
    split; [|constructor].
    intros a d z. split; [intros []|]. intros [[n [[] _]] _].
  - split; [eapply insert_keeps_ids; eauto|]. split.
    + destruct (insert_node_inv _ _ _ Hins) as [_ [Hc [_ [Hn _]]]].
      intros n Hin. rewrite Hn in Hin. apply in_app_or in Hin as [Hin|[<-|[]]]; auto.
    + split; [eapply insert_keeps_no_orphans; eauto|].
      split; [eapply insert_keeps_closure; eauto|].
      eapply insert_keeps_path_key; eauto. now apply closure_rows_stored.
  - destruct (delete_node_facts db i) as [_ [Hsub _]].
    split; [now apply delete_rows_ids_unique|]. split; [auto|].
    split; [now apply delete_node_no_orphans|].
    split; [now apply delete_keeps_closure|].
    unfold delete_node.
    apply (delete_rows_keeps (fun cur => NoDup (map path_key (node_paths cur)))).
    + intros cur j H _. unfold remove_row, trg_node_delete. simpl.
      now apply NoDup_map_filter_any.
    + assumption.
Qed.

(** In every reachable store [id] is a key of [nodes], (ancestor,
    descendant) is a key of [node_paths] - so the INSERTs of the trigger
    never meet a row that is already there - and every row of [nodes]
    passes the CHECK constraint. *)
Theorem reachable_keys_hold (db : database) :
  reachable db ->
  NoDup (map id (nodes db))
  /\ NoDup (map (fun np => (ancestor_id np, descendant_id np)) (node_paths db))
  /\ forall n, In n (nodes db) -> check_code_xor_pattern n = true.
Proof.
  intros Hr. destruct (reachable_invariants db Hr) as [Hnd [Hck [_ [_ Hkey]]]].
  auto.
Qed.

(** The helper query "Find Orphaned Nodes" finds nothing in a reachable
    store. *)
Theorem reachable_no_orphaned_nodes (db : database) :
  reachable db -> orphaned_nodes db = [].
Proof.
  intros Hr. apply orphaned_nodes_spec.
  now destruct (reachable_invariants db Hr) as [_ [_ [Hno _]]].
Qed.

(** What the triggers maintain: in every reachable store the closure
    table holds the triple (a, d, z) exactly when [d] is stored, [a] is a
    stored node that has a parent, and walking [parent_id] from [d]
    reaches [a] after [z] steps.  Rows whose ancestor is a family root
    are the ones that are missing. *)
Theorem reachable_closure_misses_roots_only (db : database) (a d z : Z) :
  reachable db ->
  (In (mk_path a d z) (node_paths db) <->
   (exists n, In n (nodes db) /\ id n = d)
   /\ (exists n, In n (nodes db) /\ id n = a /\ parent_id n <> None)
   /\ (exists k, z = Z.of_nat k /\ ancestor_at db d k = Some a)).
Proof.
  intros Hr. destruct (reachable_invariants db Hr) as [_ [_ [_ [Hcl _]]]].
  apply Hcl.
Qed.

(** In a reachable store no closure row starts at a family root: the
    lookup used by both checks of Query 4 answers no for a root and any
    node, the root itself included. *)
Theorem reachable_root_reaches_nothing (db : database) (r : node) (d : Z) :
  reachable db -> In r (nodes db) -> parent_id r = None ->
  path_exists db (id r) d = false.
Proof.
  intros Hr Hin Hroot. destruct (reachable_invariants db Hr) as [Hnd [_ [_ [Hcl _]]]].
  apply not_true_iff_false. intros Hp.
  apply path_exists_spec in Hp as [[a d' z] [Hnp [Ha Hd]]]. simpl in Ha, Hd. subst.
  apply Hcl in Hnp as [_ [[n [Hn [Hid Hpar]]] _]].
  assert (n = r) by (apply (NoDup_key_inj id (nodes db)); auto). subst. contradiction.
Qed.

Lemma root_then_child_reachable :
  reachable (mk_db [selectable 1 None 0 "CAR" 0; selectable 2 (Some 1) 1 "ENGINE-A" 5]
                   [mk_path 2 2 0]).
Proof.
  eapply reachable_insert with (new := selectable 2 (Some 1) 1 "ENGINE-A" 5).
  - eapply reachable_insert with (new := selectable 1 None 0 "CAR" 0).
    + apply reachable_empty.
    + reflexivity.
  - reflexivity.
Defined.

Lemma reachable_keys_hold_witness :
  NoDup (map id [selectable 1 None 0 "CAR" 0; selectable 2 (Some 1) 1 "ENGINE-A" 5]).
Proof. apply (reachable_keys_hold _ root_then_child_reachable). Defined.

Lemma reachable_no_orphaned_nodes_witness :
  orphaned_nodes
    (mk_db [selectable 1 None 0 "CAR" 0; selectable 2 (Some 1) 1 "ENGINE-A" 5]
           [mk_path 2 2 0]) = [].
Proof. apply (reachable_no_orphaned_nodes _ root_then_child_reachable). Defined.

Lemma reachable_closure_misses_roots_only_witness :
  In (mk_path 2 2 0)
     (node_paths (mk_db [selectable 1 None 0 "CAR" 0;
                         selectable 2 (Some 1) 1 "ENGINE-A" 5] [mk_path 2 2 0])).
Proof.
  apply (reachable_closure_misses_roots_only _ 2 2 0 root_then_child_reachable).
  split; [eexists; split; [right; left; reflexivity | reflexivity]|].
  split; [eexists; split; [right; left; reflexivity | split; [reflexivity | discriminate]]|].
  exists O. split; reflexivity.
Defined.

Lemma reachable_root_reaches_nothing_witness :
  path_exists (mk_db [selectable 1 None 0 "CAR" 0;
                      selectable 2 (Some 1) 1 "ENGINE-A" 5] [mk_path 2 2 0]) 1 2 = false.
Proof.
  apply (reachable_root_reaches_nothing _ (selectable 1 None 0 "CAR" 0) 2
           root_then_child_reachable).
  - left. reflexivity.
  - reflexivity.
Defined.

Lemma filter_all_true {A : Type} (f : A -> bool) (l : list A) :
  (forall x, In x l -> f x = true) -> filter f l = l.
Proof.
  induction l as [|a t IH]; simpl; intros H; [reflexivity|].
  rewrite (H a (or_introl eq_refl)). f_equal. apply IH. auto.
Qed.

Lemma filter_all_false {A : Type} (f : A -> bool) (l : list A) :
  (forall x, In x l -> f x = false) -> filter f l = [].
Proof.
  induction l as [|a t IH]; simpl; intros H; [reflexivity|].
  rewrite (H a (or_introl eq_refl)). apply IH. auto.
Qed.

(** Round trip: in a reachable store, deleting a row right after a
    successful INSERT of it gives back the store as it was, closure table
    included. *)
Theorem insert_then_delete_restores (new : node) (db db' : database) :
  reachable db -> insert_node new db = Some db' ->
  delete_node (id new) db' = db.
Proof.
  intros Hr Hins. destruct (reachable_invariants db Hr) as [_ [_ [Hno [Hcl _]]]].
  destruct (insert_node_inv _ _ _ Hins) as [Hfresh [_ [Hpar [Hn Hpaths]]]].
  assert (Hnot : forall x, stored db x -> x <> id new).
  { intros x [n [Hin <-]]. now apply Hfresh. }
  assert (Hkids : filter (fun n => sql_eq Z.eqb (parent_id n) (Some (id new))) (nodes db')
                  = []).
  { apply filter_all_false. intros n Hin. apply not_true_iff_false. intros Hp.
    apply sql_eq_Z_spec in Hp. rewrite Hn in Hin.
    apply in_app_or in Hin as [Hin|[<-|[]]].
    - exact (Hnot _ (Hno n _ Hin Hp) eq_refl).
    - exact (Hnot _ (Hpar _ Hp) eq_refl). }
  assert (Hrow : remove_row (id new) db' = db).
  { unfold remove_row. rewrite Hn, Hpaths. destruct db as [ns ps]. simpl in *. f_equal.
    - rewrite filter_app. simpl. rewrite Z.eqb_refl. simpl. rewrite app_nil_r.
      apply filter_all_true. intros n Hin. apply negb_true_iff, Z.eqb_neq.
      now apply Hfresh.
    - assert (Hold : trg_node_delete (id new) ps = ps).
      { apply filter_all_true. intros np Hin.
        destruct (closure_rows_stored _ Hcl np Hin) as [Ha Hd].
        apply negb_true_iff, orb_false_iff. split; apply Z.eqb_neq; now apply Hnot. }
      destruct (parent_id new) as [p|] eqn:Ep.
      + assert (Hne : p <> id new) by (apply Hnot, Hpar; reflexivity).
        rewrite (trg_node_insert_rows new p _ Ep Hne).
        unfold trg_node_delete in *. rewrite filter_app, Hold.
        rewrite filter_all_false; [apply app_nil_r|].
        intros np [<-|Hin]; simpl.
        * now rewrite Z.eqb_refl.
        * apply in_map_iff in Hin as [np' [<- _]]. simpl.
          rewrite Z.eqb_refl. apply negb_false_iff, orb_true_r.
      + unfold trg_node_insert. rewrite Ep. exact Hold. }
  unfold delete_node. rewrite delete_rows_step.
  assert (Hst : existsb (fun n => id n =? id new) (nodes db') = true).
  { apply existsb_id_spec. exists new. split; [|reflexivity].
    rewrite Hn. apply in_or_app. right. now left. }
  rewrite Hst, Hkids, Hrow. simpl.
  destruct (List.length (nodes db')); reflexivity.
Qed.

Lemma insert_then_delete_restores_witness :
  delete_node 2
    (mk_db [selectable 1 None 0 "CAR" 0; selectable 2 (Some 1) 1 "ENGINE-A" 5]
           [mk_path 2 2 0])
  = mk_db [selectable 1 None 0 "CAR" 0] [].
Proof.
  apply (insert_then_delete_restores (selectable 2 (Some 1) 1 "ENGINE-A" 5)
           (mk_db [selectable 1 None 0 "CAR" 0] [])).
  - eapply reachable_insert with (new := selectable 1 None 0 "CAR" 0).
    + apply reachable_empty.
    + reflexivity.
  - reflexivity.
Defined.

(** "Check Closure Table Integrity" on a reachable store: the number of
    self references is the number of rows of [nodes] that have a parent
    (not the number of all rows), and no depth is negative. *)
Theorem closure_integrity_counts_non_roots (db : database) :
  reachable db ->
  self_references (check_closure_integrity db)
  = count_when (fun n => is_not_null (parent_id n)) (nodes db)
  /\ forall m, ci_max_depth (check_closure_integrity db) = Some m -> 0 <= m.
Proof.
  intros Hr. destruct (reachable_invariants db Hr) as [Hnd [_ [_ [Hcl Hkey]]]].
  split.
  - unfold check_closure_integrity, count_when. simpl. f_equal.
    rewrite <- (length_map ancestor_id), <- (length_map id (filter _ (nodes db))).
    apply Permutation_length, NoDup_Permutation.
    + apply (NoDup_map_rekey path_key).
      * intros [a d z] [a' d' z'] Hx Hy Hk. apply filter_In in Hx as [Hx Hzx], Hy as [Hy Hzy].
        simpl in *. apply Z.eqb_eq in Hzx, Hzy. subst.
        apply Hcl in Hx as [_ [_ [k [Hz Hk]]]], Hy as [_ [_ [k' [Hz' Hk']]]].
        destruct k; [|lia]. destruct k'; [|lia]. simpl in Hk, Hk'.
        unfold path_key. simpl. congruence.
      * now apply NoDup_map_filter_any.
    + now apply NoDup_map_filter.
    + intros x. rewrite !in_map_iff. split.
      * intros [[a d z] [<- Hin]]. apply filter_In in Hin as [Hin Hz].
        simpl in *. apply Z.eqb_eq in Hz. subst.
        apply Hcl in Hin as [_ [[n [Hn [Hid Hp]]] _]]. exists n.
        split; [assumption|]. apply filter_In. split; [assumption|].
        now apply is_not_null_spec.
      * intros [n [<- Hin]]. apply filter_In in Hin as [Hin Hp].
        apply is_not_null_spec in Hp. exists (mk_path (id n) (id n) 0).
        split; [reflexivity|]. apply filter_In. split; [|reflexivity].
        apply Hcl. split; [exists n; auto|]. split; [exists n; auto|].
        exists O. auto.
  - intros m Hm. unfold check_closure_integrity in Hm. simpl in Hm.
    apply sql_max_spec in Hm as [Hin _]. apply in_map_iff in Hin as [[a d z] [<- Hin]].
    apply Hcl in Hin as [_ [_ [k [-> _]]]]. simpl. lia.
Qed.

Lemma closure_integrity_counts_non_roots_witness :
  self_references
    (check_closure_integrity
       (mk_db [selectable 1 None 0 "CAR" 0; selectable 2 (Some 1) 1 "ENGINE-A" 5]
              [mk_path 2 2 0]))
  = count_when (fun n => is_not_null (parent_id n))
      [selectable 1 None 0 "CAR" 0; selectable 2 (Some 1) 1 "ENGINE-A" 5].
Proof. apply (closure_integrity_counts_non_roots _ root_then_child_reachable). Defined.

(** The backward check of Query 4 reads the closure table from the
    candidate downward and only looks at selections below the target
    level: a candidate passes exactly when the table holds a row from it
    to every matched selection of a lower level. *)
Theorem backward_check_tests_lower_levels (db : database) (target_level : Z)
  (current_selections : list selection) (cid : Z) :
  backward_pass db target_level current_selections cid = true <->
  In cid (map c_id (candidates db target_level))
  /\ forall si, In si (selection_ids db current_selections) ->
                si_level si < target_level ->
                path_exists db cid (si_id si) = true.
Proof. apply backward_pass_spec. Qed.

(* ------------------------------------------------------------------ *)
(** ** Query 8: the path from the root *)
(* ------------------------------------------------------------------ *)

Section WithRecursive.
Context {A : Type} (step : list A -> list A).
Hypothesis step_nil : step [] = [].

Lemma recursive_round_succ (k : nat) (work : list A) :
  recursive_round step (S k) work = step (recursive_round step k work).
Proof.
  revert work. induction k as [|k IH]; intros work; [reflexivity|].
  change (recursive_round step (S (S k)) work)
    with (recursive_round step (S k) (step work)).
  now rewrite IH.
Qed.

Lemma recursive_round_nil (k : nat) : recursive_round step k [] = [].
Proof. induction k as [|k IH]; simpl; [reflexivity | now rewrite step_nil]. Qed.

Lemma with_recursive_terminates (fuel m : nat) (work : list A) :
  recursive_round step m work = [] -> (m < fuel)%nat ->
  exists rows, with_recursive step fuel work = Some rows.
Proof.
  revert m work. induction fuel as [|f IH]; intros m work Hm Hlt; [lia|].
  simpl. destruct work as [|r w]; [eauto|].
  destruct m as [|m]; [discriminate|]. simpl in Hm.
  destruct (IH m _ Hm) as [rows Hrows]; [lia|].
  rewrite Hrows. simpl. eauto.
Qed.

Lemma with_recursive_rows (fuel : nat) (work rows : list A) :
  with_recursive step fuel work = Some rows ->
  forall r, In r rows <-> exists k, In r (recursive_round step k work).
Proof.
  revert work rows. induction fuel as [|f IH]; intros work rows H r; [discriminate|].
  simpl in H. destruct work as [|r0 w].
  - injection H as <-. split; [intros [] |].
    intros [k Hk]. now rewrite recursive_round_nil in Hk.
  - destruct (with_recursive step f (step (r0 :: w))) as [rows'|] eqn:E;
      [|discriminate].
    simpl in H. injection H as <-. simpl. rewrite in_app_iff, (IH _ _ E). split.
    + intros [H0|[Hw|[k Hk]]];
        [exists O; left; exact H0 | exists O; right; exact Hw | exists (S k); exact Hk].
    + intros [[|k] Hk]; [destruct Hk; auto | right; right; exists k; exact Hk].
Qed.
End WithRecursive.

Lemma path_to_root_step_nil (db : database) : path_to_root_step db [] = [].
Proof.
  unfold path_to_root_step, join. simpl.
  induction (nodes db) as [|n t IH]; simpl; [reflexivity | exact IH].
Qed.

Lemma ancestor_at_succ_r (db : database) (i : Z) (k : nat) :
  ancestor_at db i (S k) =
  match ancestor_at db i k with
  | Some m => parent_of db m
  | None => None
  end.
Proof.
  replace (S k) with (k + 1)%nat by lia. rewrite ancestor_at_add.
  destruct (ancestor_at db i k) as [m|]; [|reflexivity].
  simpl. destruct (parent_of db m); reflexivity.
Qed.

(** Round [k] of [path_to_root] holds the node that lies [k] steps above
    the target. *)
Lemma path_to_root_round_In (db : database) (n0 : node) :
  NoDup (map id (nodes db)) -> In n0 (nodes db) ->
  forall k r,
    In r (recursive_round (path_to_root_step db) k [path_row_of n0 0]) <->
    exists n, In n (nodes db) /\ ancestor_at db (id n0) k = Some (id n)
              /\ r = path_row_of n (Z.of_nat k).
Proof.
  intros Hnd Hn0 k. induction k as [|k IH]; intros r.
  - simpl. split.
    + intros [<-|[]]. exists n0. auto.
    + intros [n [Hn [Hid ->]]]. left. injection Hid as Hid.
      f_equal. apply (NoDup_key_inj id (nodes db)); auto.
  - rewrite recursive_round_succ, ancestor_at_succ_r.
    unfold path_to_root_step at 1. rewrite in_map_iff. split.
    + intros [[n p] [<- Hj]]. apply join_In in Hj as [Hn [Hp Hon]].
      apply IH in Hp as [np [Hnp [Hk ->]]]. simpl in *.
      apply sql_eq_Z_spec in Hon. exists n. split; [assumption|]. split.
      * now rewrite Hk, (parent_of_key db Hnd np Hnp).
      * f_equal. lia.
    + intros [n [Hn [Hk ->]]].
      destruct (ancestor_at db (id n0) k) as [m|] eqn:Em; [|discriminate].
      apply parent_of_node in Hk as [np [Hnp [Hid Hpar]]]. subst m.
      exists (n, path_row_of np (Z.of_nat k)). split.
      * simpl. f_equal. lia.
      * apply join_In. split; [assumption|]. split.
        -- apply IH. exists np. auto.
        -- simpl. rewrite Hpar. simpl. apply Z.eqb_refl.
Qed.

Lemma depth_desc_sorted {A : Type} (key : A -> Z) (l : list A) :
  StronglySorted (fun a b => key b <= key a)
    (order_by (fun a b => depth_desc (key a) (key b)) l).
Proof.
  pose proof (order_by_sorted (fun a b => depth_desc (key a) (key b))) as Hs.
  assert (Hs' : StronglySorted (fun a b => depth_desc (key a) (key b) = true)
                  (order_by (fun a b => depth_desc (key a) (key b)) l)).
  { apply Hs.
    - intros a b. unfold depth_desc. rewrite !Z.leb_le. lia.
    - intros a b c. unfold depth_desc. rewrite !Z.leb_le. lia. }
  clear Hs. induction Hs' as [|a s _ IH Hall]; constructor; [exact IH|].
  rewrite Forall_forall in *. intros b Hb. specialize (Hall b Hb).
  unfold depth_desc in Hall. now apply Z.leb_le.
Qed.

Lemma path_from_root_spec (db : database) (target_code : string)
  (target_full_typecode : option string) (n0 : node) (fuel : nat) :
  NoDup (map id (nodes db)) ->
  parents_first db ->
  filter (is_target target_code target_full_typecode) (nodes db) = [n0] ->
  (enough_rounds db <= fuel)%nat ->
  exists rows,
    path_from_root fuel db target_code target_full_typecode = Some rows
    /\ (forall b, In b rows <->
          exists n k, In n (nodes db) /\ ancestor_at db (id n0) k = Some (id n)
                      /\ code n <> None
                      /\ b = mk_breadcrumb (code n) (label n) (level n) (Z.of_nat k))
    /\ StronglySorted (fun a b => bc_depth b <= bc_depth a) rows.
Proof.
  intros Hnd Hpf Hsel Hfuel.
  assert (Hn0 : In n0 (nodes db)).
  { assert (H : In n0 (filter (is_target target_code target_full_typecode) (nodes db)))
      by (rewrite Hsel; left; reflexivity).
    now apply filter_In in H. }
  assert (Hout : recursive_round (path_to_root_step db)
                   (Z.to_nat (fold_right Z.max 0 (map id (nodes db))))
                   [path_row_of n0 0] = []).
  { destruct (recursive_round _ _ [path_row_of n0 0]) as [|r rs] eqn:E; [reflexivity|].
    exfalso.
    assert (Hr : In r (recursive_round (path_to_root_step db)
                         (Z.to_nat (fold_right Z.max 0 (map id (nodes db))))
                         [path_row_of n0 0])) by (rewrite E; left; reflexivity).
    apply (path_to_root_round_In db n0 Hnd Hn0) in Hr as [n [Hn [Ha _]]].
    apply (ancestor_at_lower db Hpf) in Ha.
    pose proof (id_le_max db n0 Hn0). destruct (Hpf n Hn) as [Hpos _]. lia. }
  destruct (with_recursive_terminates (path_to_root_step db) fuel _ _ Hout)
    as [rows Hrows]; [unfold enough_rounds in Hfuel; lia|].
  unfold path_from_root, path_to_root_base. rewrite Hsel. simpl map at 2.
  rewrite Hrows. simpl. eexists. split; [reflexivity|]. split.
  - intros b. rewrite in_map_iff. split.
    + intros [r [<- Hr]]. apply order_by_In, filter_In in Hr as [Hr Hc].
      apply (with_recursive_rows _ (path_to_root_step_nil db) _ _ _ Hrows) in Hr
        as [k Hk].
      apply (path_to_root_round_In db n0 Hnd Hn0) in Hk as [n [Hn [Ha ->]]].
      simpl in *. apply is_not_null_spec in Hc. exists n, k. auto.
    + intros [n [k [Hn [Ha [Hc ->]]]]]. exists (path_row_of n (Z.of_nat k)).
      split; [reflexivity|]. apply order_by_In, filter_In. split.
      * apply (with_recursive_rows _ (path_to_root_step_nil db) _ _ _ Hrows).
        exists k. apply (path_to_root_round_In db n0 Hnd Hn0). exists n. auto.
      * simpl. now apply is_not_null_spec.
  - apply StronglySorted_map. apply (depth_desc_sorted pr_depth_from_target).
Qed.

Lemma path_from_root_closure_spec (db : database) (target_code : string)
  (target_full_typecode : option string) (n0 : node) :
  NoDup (map id (nodes db)) ->
  closure_complete db ->
  filter (is_target target_code target_full_typecode) (nodes db) = [n0] ->
  forall b,
    In b (path_from_root_closure db target_code target_full_typecode) <->
    exists n k, In n (nodes db) /\ ancestor_at db (id n0) k = Some (id n)
                /\ code n <> None
                /\ b = mk_breadcrumb (code n) (label n) (level n) (Z.of_nat k).
Proof.
  intros Hnd Hcc Hsel b.
  assert (Hn0 : In n0 (nodes db)).
  { assert (H : In n0 (filter (is_target target_code target_full_typecode) (nodes db)))
      by (rewrite Hsel; left; reflexivity).
    now apply filter_In in H. }
  unfold path_from_root_closure, target_node. rewrite Hsel. simpl limit_1. simpl map at 2.
  rewrite in_map_iff. split.
  - intros [[[np n] t] [<- Hin]]. apply order_by_In, filter_In in Hin as [Hin Hc].
    apply join_In in Hin as [Hin [Ht Hon]]. apply join_In in Hin as [Hnp [Hn Ha]].
    simpl in *. destruct Ht as [<-|[]]. apply Z.eqb_eq in Hon, Ha.
    apply is_not_null_spec in Hc. destruct np as [a d z]. simpl in *. subst.
    apply Hcc in Hnp as [_ [k [-> Hk]]]. exists n, k. auto.
  - intros [n [k [Hn [Ha [Hc ->]]]]].
    exists (mk_path (id n) (id n0) (Z.of_nat k), n, id n0). split; [reflexivity|].
    apply order_by_In, filter_In. split; [|simpl; now apply is_not_null_spec].
    apply join_In. split; [|split; [left; reflexivity | simpl; apply Z.eqb_refl]].
    apply join_In. split; [|split; [assumption | simpl; apply Z.eqb_refl]].
    apply Hcc. split; [exists n0; auto | exists k; auto].
Qed.

(** Query 8, recursive statement: when one node is the target, ids are
    unique and parents have smaller ids than their children, the
    statement terminates and lists exactly the nodes with a code on the
    way from the target to its root, each with its distance from the
    target, the farthest first. *)
Theorem path_from_root_lists_ancestors (db : database) (target_code : string)
  (target_full_typecode : option string) (n0 : node) (fuel : nat) :
  NoDup (map id (nodes db)) ->
  parents_first db ->
  filter (is_target target_code target_full_typecode) (nodes db) = [n0] ->
  (enough_rounds db <= fuel)%nat ->
  exists rows,
    path_from_root fuel db target_code target_full_typecode = Some rows
    /\ (forall b, In b rows <->
          exists n k, In n (nodes db) /\ ancestor_at db (id n0) k = Some (id n)
                      /\ code n <> None
                      /\ b = mk_breadcrumb (code n) (label n) (level n) (Z.of_nat k))
    /\ StronglySorted (fun a b => bc_depth b <= bc_depth a) rows.
Proof. apply path_from_root_spec. Qed.

Lemma chain_ids_NoDup : NoDup (map id (nodes chain_db)).
Proof. repeat constructor; simpl; intuition lia. Defined.

Lemma chain_parents_first : parents_first chain_db.
Proof.
  intros n Hn. destruct Hn as [<-|[<-|[<-|[]]]]; simpl;
    (split; [lia|]); intros p Hp; try discriminate; injection Hp as <-; lia.
Defined.

Lemma path_from_root_lists_ancestors_witness :
  exists rows, path_from_root 5 chain_db "T" None = Some rows
               /\ StronglySorted (fun a b => bc_depth b <= bc_depth a) rows.
Proof.
  destruct (path_from_root_lists_ancestors chain_db "T" None
              (selectable 3 (Some 2) 2 "T" 4) 5 chain_ids_NoDup chain_parents_first)
    as [rows [H [_ Hs]]].
  - reflexivity.
  - vm_compute. lia.
  - exists rows. auto.
Defined.

(** Query 8, both statements: on a store with a complete closure table
    the closure-table statement returns the rows of the recursive
    statement, and lists them farthest first as well. *)
Theorem path_from_root_closure_agrees (db : database) (target_code : string)
  (target_full_typecode : option string) (n0 : node) (fuel : nat) :
  NoDup (map id (nodes db)) ->
  parents_first db ->
  closure_complete db ->
  filter (is_target target_code target_full_typecode) (nodes db) = [n0] ->
  (enough_rounds db <= fuel)%nat ->
  exists rows,
    path_from_root fuel db target_code target_full_typecode = Some rows
    /\ (forall b, In b rows <->
                  In b (path_from_root_closure db target_code target_full_typecode))
    /\ StronglySorted (fun a b => bc_depth b <= bc_depth a)
         (path_from_root_closure db target_code target_full_typecode).
Proof.
  intros Hnd Hpf Hcc Hsel Hfuel.
  destruct (path_from_root_spec db target_code target_full_typecode n0 fuel
              Hnd Hpf Hsel Hfuel) as [rows [Hrows [Hin _]]].
  exists rows. split; [assumption|]. split.
  - intros b. rewrite Hin.
    now rewrite (path_from_root_closure_spec db _ _ n0 Hnd Hcc Hsel).
  - unfold path_from_root_closure. apply StronglySorted_map.
    apply (depth_desc_sorted (fun r : node_path * node * Z => depth (fst (fst r)))).
Qed.

Lemma path_from_root_closure_agrees_witness :
  exists rows, path_from_root 5 chain_db "T" None = Some rows
               /\ forall b, In b rows <-> In b (path_from_root_closure chain_db "T" None).
Proof.
  destruct (path_from_root_closure_agrees chain_db "T" None
              (selectable 3 (Some 2) 2 "T" 4) 5 chain_ids_NoDup chain_parents_first
              chain_db_closure_complete)
    as [rows [H [Hin _]]].
  - reflexivity.
  - vm_compute. lia.
  - exists rows. auto.
Defined.

(* ------------------------------------------------------------------ *)
(** ** The product views *)
(* ------------------------------------------------------------------ *)

Lemma filter_split_perm {A : Type} (f g : A -> bool) (l : list A) :
  Permutation (filter (fun a => f a && negb (g a)) l ++ filter (fun a => f a && g a) l)
              (filter f l).
Proof.
  induction l as [|a t IH]; simpl; [constructor|].
  destruct (f a), (g a); simpl; auto.
  - apply Permutation_sym, Permutation_cons_app, Permutation_sym, IH.
Qed.

(** The views [v_leaf_products] and [v_intermediate_products] split the
    rows that have a full typecode between them (the intermediate flag of
    a row being 0 or 1, as [nodes] is modelled): every such row is in
    one of the two, none in both when [id] is a key, and each view lists
    its rows by typecode. *)
Theorem product_views_partition (db : database) :
  Permutation (map pv_id (v_leaf_products db) ++ map pv_id (v_intermediate_products db))
              (map id (filter (fun n => is_not_null (full_typecode n)) (nodes db)))
  /\ (NoDup (map id (nodes db)) ->
      forall r1 r2, In r1 (v_leaf_products db) -> In r2 (v_intermediate_products db) ->
                    pv_id r1 <> pv_id r2)
  /\ StronglySorted (fun a b => text_leb (pv_full_typecode a) (pv_full_typecode b) = true)
       (v_leaf_products db)
  /\ StronglySorted (fun a b => text_leb (pv_full_typecode a) (pv_full_typecode b) = true)
       (v_intermediate_products db).
Proof.
  split; [|split; [|split]].
  - unfold v_leaf_products, v_intermediate_products. rewrite !map_map. simpl.
    rewrite <- map_app. apply Permutation_map.
    eapply perm_trans; [|apply (filter_split_perm _ is_intermediate_code)].
    apply Permutation_app; apply order_by_perm.
  - intros Hnd r1 r2 H1 H2 Heq.
    unfold v_leaf_products in H1. unfold v_intermediate_products in H2.
    apply in_map_iff in H1 as [n1 [<- H1]], H2 as [n2 [<- H2]].
    apply order_by_In, filter_In in H1 as [H1 F1], H2 as [H2 F2]. simpl in Heq.
    assert (n1 = n2) by (apply (NoDup_key_inj id (nodes db)); auto). subst.
    apply andb_true_iff in F1 as [_ F1], F2 as [_ F2].
    rewrite F2 in F1. discriminate.
  - unfold v_leaf_products. apply StronglySorted_map.
    apply (text_sorted_by_key full_typecode).
  - unfold v_intermediate_products. apply StronglySorted_map.
    apply (text_sorted_by_key full_typecode).
Qed.

Lemma product_views_partition_witness :
  pv_id (mk_product_view_row 2 (Some "A") (Some "S A") "A" None)
  <> pv_id (mk_product_view_row 1 (Some "S") (Some "S") "S" None).
Proof.
  apply (proj1 (proj2 (product_views_partition
           (mk_db [ mk_node 1 None 0 (Some "S") "option" "S" None 0 None
                            (Some "S") true None;
                    mk_node 2 (Some 1) 1 (Some "A") "option" "A" None 2 None
                            (Some "S A") false None ] [])))).
  - repeat constructor; simpl; intuition lia.
  - left. reflexivity.
  - left. reflexivity.
Defined.

(* ------------------------------------------------------------------ *)
(** ** The mapping editor: counting combinations *)
(* ------------------------------------------------------------------ *)

Lemma flat_map_length_const {A B : Type} (f : A -> list B) (l : list A) (c : nat) :
  (forall x, In x l -> List.length (f x) = c) ->
  List.length (flat_map f l) = (List.length l * c)%nat.
Proof.
  induction l as [|a t IH]; simpl; intros H; [reflexivity|].
  rewrite length_app, (H a (or_introl eq_refl)), IH by auto. reflexivity.
Qed.

Lemma generateRecursive_length (group : Group) (rest : list Position) :
  forall pos path,
    List.length (generateRecursive group rest pos path)
    = product (map (fun p => List.length (codes p)) rest).
Proof.
  induction rest as [|p rest IH]; intros pos path; simpl; [reflexivity|].
  apply flat_map_length_const. intros c _. apply IH.
Qed.

Lemma product_perm (l l' : list nat) : Permutation l l' -> product l = product l'.
Proof.
  induction 1; unfold product in *; simpl in *; lia.
Qed.

Lemma product_zero (l : list nat) : In 0%nat l -> product l = 0%nat.
Proof.
  induction l as [|a t IH]; simpl; intros H; [destruct H|].
  destruct H as [->|H]; [reflexivity|]. unfold product in *. simpl.
  rewrite (IH H). lia.
Qed.

Lemma generateGroupCombinations_length (group : Group) :
  List.length (generateGroupCombinations group)
  = match positions group with
    | [] => 0%nat
    | _ => product (code_counts group)
    end.
Proof.
  unfold generateGroupCombinations, code_counts.
  destruct (positions group) as [|p ps] eqn:E; [reflexivity|].
  rewrite generateRecursive_length. apply product_perm, Permutation_map.
  unfold sortedPositions. rewrite E. apply order_by_perm.
Qed.

(** [generateGroupCombinations] returns one string per way of picking a
    code at each position: none for a group without positions, otherwise
    the product of the numbers of codes of the positions - so none as
    soon as one position has no code. *)
Theorem group_combinations_count (group : Group) :
  List.length (generateGroupCombinations group)
  = match positions group with
    | [] => 0%nat
    | _ => product (code_counts group)
    end
  /\ ((exists p, In p (positions group) /\ codes p = []) ->
      generateGroupCombinations group = []).
Proof.
  split; [apply generateGroupCombinations_length|].
  intros [p [Hp Hc]]. apply length_zero_iff_nil.
  rewrite generateGroupCombinations_length.
  destruct (positions group) as [|q qs] eqn:E; [reflexivity|].
  apply product_zero. unfold code_counts. rewrite E. apply in_map_iff.
  exists p. rewrite Hc. auto.
Qed.

Lemma cartesianProduct_length (arrays : list (list string)) :
  forall acc : list (list string),
    List.length
      (fold_left (fun acc curr => flat_map (fun a => map (fun c => a ++ [c]) curr) acc)
                 arrays acc)
    = (List.length acc * product (map (@List.length string) arrays))%nat.
Proof.
  induction arrays as [|curr rest IH]; intros acc; simpl; [lia|].
  rewrite IH. rewrite (flat_map_length_const _ acc (List.length curr)).
  - unfold product. simpl. lia.
  - intros a _. apply length_map.
Qed.

(** [generateCombinationsForPreview] skips the groups without positions
    and returns as many strings as the product of the combination counts
    of the others; it returns none when no group has a position, and none
    when a position of a group is left without codes. *)
Theorem preview_combinations_count (groups : list Group) :
  List.length (generateCombinationsForPreview groups)
  = match filter has_positions groups with
    | [] => 0%nat
    | gs => product (map (fun g => product (code_counts g)) gs)
    end
  /\ ((exists g p, In g groups /\ In p (positions g) /\ codes p = []) ->
      generateCombinationsForPreview groups = []).
Proof.
  assert (Hlen : List.length (generateCombinationsForPreview groups)
                 = match filter has_positions groups with
                   | [] => 0%nat
                   | gs => product (map (fun g => product (code_counts g)) gs)
                   end).
  { unfold generateCombinationsForPreview.
    destruct groups as [|g0 gs0]; [reflexivity|].
    destruct (filter has_positions (g0 :: gs0)) as [|g gs] eqn:E; [reflexivity|].
    assert (Hall : forall x, In x (g :: gs) -> has_positions x = true).
    { intros x Hx. rewrite <- E in Hx. now apply filter_In in Hx. }
    cbv zeta. destruct (map generateGroupCombinations (g :: gs)) as [|c cs] eqn:Em;
      [discriminate|].
    rewrite <- Em, length_map. unfold cartesianProduct.
    rewrite cartesianProduct_length, map_map. simpl List.length at 1.
    rewrite Nat.mul_1_l. f_equal. apply map_ext_in. intros x Hx.
    rewrite generateGroupCombinations_length. specialize (Hall x Hx).
    unfold has_positions in Hall. destruct (positions x); [discriminate | reflexivity]. }
  split; [exact Hlen|].
  intros [g [p [Hg [Hp Hc]]]]. apply length_zero_iff_nil. rewrite Hlen.
  assert (Hin : In g (filter has_positions groups)).
  { apply filter_In. split; [assumption|]. unfold has_positions.
    destruct (positions g); [destruct Hp | reflexivity]. }
  destruct (filter has_positions groups) as [|g' gs]; [reflexivity|].
  apply product_zero, in_map_iff. exists g. split; [|assumption].
  apply product_zero. unfold code_counts. apply in_map_iff. exists p.
  rewrite Hc. auto.
Qed.

Lemma preview_combinations_count_witness :
  generateCombinationsForPreview
    [mk_Group 1 [mk_Position 0 [mk_Code "A"; mk_Code "AT"]; mk_Position 1 []]] = [].
Proof.
  apply (proj2 (preview_combinations_count _)).
  exists (mk_Group 1 [mk_Position 0 [mk_Code "A"; mk_Code "AT"]; mk_Position 1 []]),
         (mk_Position 1 []).
  split; [left; reflexivity|]. split; [right; left; reflexivity | reflexivity].
Defined.

Lemma group_combinations_count_witness :
  generateGroupCombinations
    (mk_Group 1 [mk_Position 0 [mk_Code "A"; mk_Code "AT"]; mk_Position 1 []]) = [].
Proof.
  apply (proj2 (group_combinations_count _)).
  exists (mk_Position 1 []). split; [right; left; reflexivity | reflexivity].
Defined.

Lemma set_add_length_spec (x : Z) (lengths : list Z) :
  NoDup lengths ->
  NoDup (set_add_length x lengths)
  /\ forall y, In y (set_add_length x lengths) <-> In y lengths \/ y = x.
Proof.
  intros Hnd. unfold set_add_length.
  destruct (existsb (Z.eqb x) lengths) eqn:E.
  - apply existsb_eqb_In in E. split; [assumption|].
    intros y. split; [auto|]. intros [H| ->]; assumption.
  - split.
    + apply NoDup_app; [assumption | repeat constructor; auto|].
      intros a Ha [<-|[]]. apply existsb_eqb_In in Ha. congruence.
    + intros y. rewrite in_app_iff. simpl. split; intros [H|H]; auto.
      * destruct H as [H|[]]; auto.
Qed.

Lemma calculateRecursive_spec (rest : list Position) :
  forall cur lengths,
    NoDup lengths ->
    NoDup (calculateRecursive rest cur lengths)
    /\ forall x, In x (calculateRecursive rest cur lengths) <->
                 In x lengths
                 \/ exists pick, In pick (picks rest) /\ x = cur + pick_length pick.
Proof.
  induction rest as [|p rest IH]; intros cur lengths Hnd; simpl.
  - destruct (set_add_length_spec cur lengths Hnd) as [H1 H2]. split; [assumption|].
    intros x. rewrite H2. split.
    + intros [H| ->]; [now left|]. right. exists []. split; [now left|].
      unfold pick_length. simpl. lia.
    + intros [H|[pick [[<-|[]] ->]]]; [now left|]. right. unfold pick_length. simpl. lia.
  - revert lengths Hnd. induction (codes p) as [|c cs IHc]; intros lengths Hnd; simpl.
    + split; [assumption|]. intros x. split; [auto|].
      intros [H|[pick [[] _]]]. exact H.
    + destruct (IH (cur + Z.of_nat (String.length (value c))) lengths Hnd) as [H1 H2].
      destruct (IHc _ H1) as [H3 H4]. split; [assumption|].
      intros x. rewrite H4, H2. split.
      * intros [[H|[pick [Hp ->]]]|[pick [Hp ->]]].
        -- now left.
        -- right. exists (c :: pick). split.
           ++ apply in_or_app. left. now apply in_map.
           ++ unfold pick_length. simpl. fold (pick_length pick). lia.
        -- right. exists pick. split; [apply in_or_app; now right | reflexivity].
      * intros [H|[pick [Hp ->]]]; [left; now left|].
        apply in_app_or in Hp as [Hp|Hp].
        -- apply in_map_iff in Hp as [pk [<- Hpk]]. left. right. exists pk.
           split; [assumption|]. unfold pick_length. simpl. fold (pick_length pk). lia.
        -- right. exists pick. auto.
Qed.

(** [calculateGroupLengths] collects, without repetition, exactly the
    total lengths of the ways to pick one code at each position of the
    group; for a group without positions the set is empty. *)
Theorem group_lengths_are_pick_lengths (group : Group) :
  NoDup (calculateGroupLengths group)
  /\ (positions group = [] -> calculateGroupLengths group = [])
  /\ (positions group <> [] ->
      forall x, In x (calculateGroupLengths group) <->
                exists pick, In pick (picks (sortedPositions group))
                             /\ x = pick_length pick).
Proof.
  unfold calculateGroupLengths.
  destruct (positions group) as [|p ps] eqn:E.
  - split; [constructor|]. split; [reflexivity | congruence].
  - destruct (calculateRecursive_spec (sortedPositions group) 0 [] (NoDup_nil Z))
      as [H1 H2].
    split; [assumption|]. split; [discriminate|]. intros _ x. rewrite H2. split.
    + intros [[]|[pick [Hp ->]]]. exists pick. split; [assumption | lia].
    + intros [pick [Hp ->]]. right. exists pick. split; [assumption | lia].
Qed.

Lemma group_lengths_are_pick_lengths_witness :
  In 3 (calculateGroupLengths
          (mk_Group 1 [mk_Position 0 [mk_Code "a"; mk_Code "ab"];
                       mk_Position 1 [mk_Code "c"; mk_Code "cd"]])).
Proof.
  apply (proj2 (proj2 (group_lengths_are_pick_lengths _))); [discriminate|].
  exists [mk_Code "a"; mk_Code "cd"]. split; [vm_compute; tauto | reflexivity].
Defined.
